(** * Pause framework: a shallow embedding of [src/pause.js]

    The development follows the JavaScript class [Pause]:
    - JavaScript values, numbers and [Error] objects as inductive data;
    - the regular expressions of [pause.js] as string functions;
    - the external collaborators (JavaScript engine, store functions,
      LLM, caller-supplied callable) as state-passing functions over an
      abstract world [W];
    - [run] and its private helpers in a small state/exception/trace
      monad, one definition per source method;
    - the in-memory store of [examples/basic-usage.js] and the mocked LLM
      of [tests/pause.test.js] as a concrete environment.

    Conventions.  A JavaScript string is a [string] whose characters are
    UTF-16 code units below 256.  An object is an association list in
    insertion order (keys are not integer-like).  Thrown values are
    [Error] objects; an assignment to [error.message] keeps the identity
    of the object and replaces its message.  The store resolves to a
    string or to [null], as its contract says.  The loop counter is an
    exact integer.  [console.log] is not modelled.  Awaiting a promise is
    the sequencing of the monad; the [for] loop of [run] takes the number
    of passes it may make as an argument, and a run that needs more is
    [Pending]. *)

From Stdlib Require Import ZArith QArith Qround String Ascii List Bool.
From stdpp Require Import base option list strings gmap pretty.

Set Warnings "-register-all".

Local Open Scope string_scope.
Local Open Scope list_scope.

(** ** JavaScript data *)

(** A JavaScript number: the special values and the finite ones.  The
    program only compares numbers with the integer loop counter. *)
Inductive number : Type :=
  | NaN
  | Infinity (negative : bool)
  | Finite (q : Q).

Inductive value : Type :=
  | Undefined
  | Null
  | Bool (b : bool)
  | Num (n : number)
  | Str (s : string)
  | Arr (items : list value)
  | Obj (fields : list (string * value))
  | Fun (source : string).

(** [typeof v] *)
Definition typeOf (v : value) : string :=
  match v with
  | Undefined => "undefined"
  | Null => "object"
  | Bool _ => "boolean"
  | Num _ => "number"
  | Str _ => "string"
  | Arr _ => "object"
  | Obj _ => "object"
  | Fun _ => "function"
  end.

Definition number_is_zero (n : number) : bool :=
  match n with
  | Finite q => Qeq_bool q 0
  | _ => false
  end.

(** ToBoolean *)
Definition truthy (v : value) : bool :=
  match v with
  | Undefined | Null => false
  | Bool b => b
  | Num NaN => false
  | Num n => negb (number_is_zero n)
  | Str s => negb (String.eqb s EmptyString)
  | Arr _ | Obj _ | Fun _ => true
  end.

Fixpoint assoc_get (k : string) (fields : list (string * value)) : option value :=
  match fields with
  | [] => None
  | (k', v) :: rest => if String.eqb k k' then Some v else assoc_get k rest
  end.

(** [obj[k] = v]: an existing key keeps its position. *)
Fixpoint assoc_set (k : string) (v : value) (fields : list (string * value))
  : list (string * value) :=
  match fields with
  | [] => [(k, v)]
  | (k', v') :: rest =>
      if String.eqb k k' then (k, v) :: rest else (k', v') :: assoc_set k v rest
  end.

(** [v.k] for a named (non-index) property [k] of a non-nullish [v]. *)
Definition getProp (v : value) (k : string) : value :=
  match v with
  | Obj fields => default Undefined (assoc_get k fields)
  | _ => Undefined
  end.

(** [a === b] where [b] is a string *)
Definition strictEqStr (a : value) (b : string) : bool :=
  match a with
  | Str s => String.eqb s b
  | _ => false
  end.

(** [attempt <= max] and [attempt === max] for the integer counter. *)
Definition int_le_number (a : Z) (m : number) : bool :=
  match m with
  | NaN => false
  | Infinity negative => negb negative
  | Finite q => Qle_bool (inject_Z a) q
  end.

Definition int_eq_number (a : Z) (m : number) : bool :=
  match m with
  | Finite q => Qeq_bool (inject_Z a) q
  | _ => false
  end.

(** Identity of an [Error] object: allocated by the environment, or by a
    [new Error(...)] of [pause.js] itself. *)
Inductive errId : Type :=
  | Foreign (n : nat)
  | Own (n : nat).

Record error : Type := mkError {
  err_id : errId;
  err_name : string;
  err_message : string;
  err_stack : string
}.

(** [error.message = m] *)
Definition set_message (e : error) (m : string) : error :=
  {| err_id := err_id e; err_name := err_name e;
     err_message := m; err_stack := err_stack e |}.

(** [Error.prototype.toString] *)
Definition error_toString (e : error) : string :=
  if String.eqb (err_name e) EmptyString then err_message e
  else if String.eqb (err_message e) EmptyString then err_name e
  else err_name e ++ ": " ++ err_message e.

(** ** Text helpers: the regular expressions of [pause.js] *)

Definition codeUnit (c : ascii) : nat := nat_of_ascii c.

(** [\s] on code units below 256 *)
Definition isSpace (c : ascii) : bool :=
  let n := codeUnit c in
  (Nat.leb 9 n && Nat.leb n 13) || Nat.eqb n 32 || Nat.eqb n 160.

(** line terminators: what [.] does not match without the [s] flag *)
Definition isLineTerminator (c : ascii) : bool :=
  let n := codeUnit c in Nat.eqb n 10 || Nat.eqb n 13.

Fixpoint skipSpaces (s : string) : string :=
  match s with
  | String c rest => if isSpace c then skipSpaces rest else s
  | EmptyString => EmptyString
  end.

Definition rev_string (s : string) : string :=
  string_of_list_ascii (rev (list_ascii_of_string s)).

(** [s.trim()] *)
Definition trim (s : string) : string :=
  rev_string (skipSpaces (rev_string (skipSpaces s))).

(** [s.startsWith(p)] with the rest of [s] after [p] *)
Fixpoint stripPrefix (p s : string) : option string :=
  match p, s with
  | EmptyString, _ => Some s
  | String a p', String b s' =>
      if Ascii.eqb a b then stripPrefix p' s' else None
  | String _ _, EmptyString => None
  end.

(** first occurrence of [needle]: the text before it and the text after it *)
Fixpoint findFirst (needle s : string) : option (string * string) :=
  match stripPrefix needle s with
  | Some rest => Some (EmptyString, rest)
  | None =>
      match s with
      | EmptyString => None
      | String c s' =>
          match findFirst needle s' with
          | Some (before, after) => Some (String c before, after)
          | None => None
          end
      end
  end.

(** [s.replace(needle, by)] with a string pattern: the first occurrence only *)
Definition replaceFirst (needle by_ s : string) : string :=
  match findFirst needle s with
  | Some (before, after) => before ++ by_ ++ after
  | None => s
  end.

(** [s.split(',')] *)
Fixpoint splitComma (s : string) : list string :=
  match s with
  | EmptyString => [EmptyString]
  | String c rest =>
      if Ascii.eqb c ","%char then EmptyString :: splitComma rest
      else match splitComma rest with
           | piece :: pieces => String c piece :: pieces
           | [] => [String c EmptyString]
           end
  end.

(** [names.join(', ')] *)
Fixpoint joinComma (l : list string) : string :=
  match l with
  | [] => EmptyString
  | [x] => x
  | x :: rest => x ++ ", " ++ joinComma rest
  end.

(** [/\((.*?)\)/]: after an opening parenthesis, the shortest run of
    characters other than line terminators that ends at a [)] *)
Fixpoint lazyUntilClose (s : string) : option string :=
  match s with
  | EmptyString => None
  | String c rest =>
      if Ascii.eqb c ")"%char then Some EmptyString
      else if isLineTerminator c then None
      else option_map (String c) (lazyUntilClose rest)
  end.

(** [codeString.match(/\((.*?)\)/)]: group 1 of the leftmost match *)
Fixpoint paramMatch (s : string) : option string :=
  match s with
  | EmptyString => None
  | String c rest =>
      if Ascii.eqb c "("%char then
        match lazyUntilClose rest with
        | Some g => Some g
        | None => paramMatch rest
        end
      else paramMatch rest
  end.

(** [paramMatch ? paramMatch[1].split(',').map(p => p.trim()).filter(Boolean) : []] *)
Definition inferParams (codeString : string) : list string :=
  match paramMatch codeString with
  | Some g =>
      filter (fun p => negb (String.eqb p EmptyString))
             (map trim (splitComma g))
  | None => []
  end.

(** [( .* )}\s*$] with the [s] flag, read after an opening brace: the text up
    to the last [}] of the input, which only white space may follow *)
Definition greedyBlock (s : string) : option string :=
  match skipSpaces (rev_string s) with
  | String c rest => if Ascii.eqb c "}"%char then Some (rev_string rest) else None
  | EmptyString => None
  end.

(** first alternative at the current position: [=>\s*{( .* )}\s*$] *)
Definition arrowBlockHere (s : string) : option string :=
  match stripPrefix "=>" s with
  | Some rest =>
      match skipSpaces rest with
      | String c body => if Ascii.eqb c "{"%char then greedyBlock body else None
      | EmptyString => None
      end
  | None => None
  end.

(** second alternative at the current position: [function.*?{( .* )}\s*$] *)
Definition functionBlockHere (s : string) : option string :=
  match stripPrefix "function" s with
  | Some rest =>
      match findFirst "{" rest with
      | Some (_, body) => greedyBlock body
      | None => None
      end
  | None => None
  end.

(** [codeString.match(/=>\s*{( .* )}\s*$|function.*?{( .* )}\s*$/s)]: the
    captured group of the leftmost match (group 1 or group 2) *)
Fixpoint bodyMatch (s : string) : option string :=
  match arrowBlockHere s with
  | Some g => Some g
  | None =>
      match functionBlockHere s with
      | Some g => Some g
      | None =>
          match s with
          | EmptyString => None
          | String _ rest => bodyMatch rest
          end
      end
  end.

(** [codeString.match(/=>\s*( .* )/s)]: group 1 *)
Definition arrowBodyMatch (s : string) : option string :=
  match findFirst "=>" s with
  | Some (_, rest) => Some (skipSpaces rest)
  | None => None
  end.

(** the body computed by [evalWrapper] *)
Definition inferBody (codeString : string) : string :=
  match bodyMatch codeString with
  | Some g => if String.eqb g EmptyString then codeString else g
  | None =>
      match arrowBodyMatch codeString with
      | Some g => "return " ++ g
      | None => codeString
      end
  end.

(** [async\s+=>] or [async\s+\(] at the current position *)
Definition asyncThenHere (next : ascii) (s : string) : bool :=
  match stripPrefix "async" s with
  | Some (String c rest) =>
      isSpace c &&
      match skipSpaces rest with
      | String d rest' =>
          if Ascii.eqb next "="%char
          then Ascii.eqb d "="%char &&
               match rest' with String e _ => Ascii.eqb e ">"%char | _ => false end
          else Ascii.eqb d next
      | EmptyString => false
      end
  | _ => false
  end.

Fixpoint asyncThenAnywhere (next : ascii) (s : string) : bool :=
  asyncThenHere next s ||
  match s with
  | EmptyString => false
  | String _ rest => asyncThenAnywhere next rest
  end.

(** [^(async\s+)?function\*?] *)
Definition functionAtStart (s : string) : bool :=
  match stripPrefix "function" s with
  | Some _ => true
  | None =>
      match stripPrefix "async" s with
      | Some (String c rest) =>
          isSpace c && bool_decide (is_Some (stripPrefix "function" (skipSpaces rest)))
      | _ => false
      end
  end.

(** [isLikelyAsyncString]:
    [/^(async\s+)?function\*?|async\s+=>|async\s+\(/.test(code.trim())] *)
Definition isLikelyAsyncString (codeString : string) : bool :=
  let t := trim codeString in
  functionAtStart t || asyncThenAnywhere "="%char t || asyncThenAnywhere "("%char t.

(** [Array(n).fill(0).map((_, i) => `arg${i}`)] *)
Definition argNames (n : nat) : list string :=
  map (fun i : nat => ("arg" ++ pretty i)%string) (seq 0 n).

(** ** The environment of a [Pause] instance *)

(** A synthesized function, [new Function(...params, body)] or
    [new AsyncFunction(...params, body)]. *)
Record synth : Type := mkSynth {
  sy_async : bool;
  sy_params : list string;
  sy_body : string
}.

(** How an awaited computation settles.  [Pending] is a repair loop that
    has not settled within the iterations allowed to the model. *)
Inductive result (A : Type) : Type :=
  | Returned (a : A)
  | Thrown (e : error)
  | Pending.
Arguments Returned {A} a.
Arguments Thrown {A} e.
Arguments Pending {A}.

(** An external call: it reads and updates the world. *)
Definition external (W A : Type) : Type := W -> result A * W.

(** The JavaScript engine, as far as [pause.js] uses it. *)
Record Engine (W : Type) : Type := mkEngine {
  (** does the [Function] constructor accept the text *)
  syntax_ok : synth -> bool;
  (** the [SyntaxError] it throws otherwise *)
  syntax_error : synth -> W -> error * W;
  (** [f(...args)] *)
  call_fn : synth -> list value -> external W value;
  (** [await f(...args)] *)
  call_await : synth -> list value -> external W value;
  JSON_parse : string -> external W value;
  JSON_stringify : value -> string;
  (** [String(v)], the coercion of template literals *)
  toStr : value -> string
}.
Arguments syntax_ok {W} _ _.
Arguments syntax_error {W} _ _ _.
Arguments call_fn {W} _ _ _ _.
Arguments call_await {W} _ _ _ _.
Arguments JSON_parse {W} _ _ _.
Arguments JSON_stringify {W} _ _.
Arguments toStr {W} _ _.

(** Where [pause.js] builds and calls a synthesized function. *)
Inductive site : Type :=
  | AtEval             (* _executeCodeStringViaEval *)
  | AtFunctionString   (* _executeFunctionString *)
  | AtValidation.      (* the syntax check of a proposed correction *)

(** The data of the correction protocol. *)
Record toolCall : Type := mkToolCall {
  tc_name : string;
  tc_args : value;
  tc_id : string
}.

Record aiResponse : Type := mkAiResponse {
  (** [None]: the field is absent *)
  tool_calls : option (list toolCall);
  content : string
}.

Definition toolCall_value (t : toolCall) : value :=
  Obj [("name", Str (tc_name t)); ("args", tc_args t); ("id", Str (tc_id t))].

(** The calls a [run] makes to its environment, in order, each with the
    way it settled. *)
Inductive event : Type :=
  | EFetch (id : string) (r : result (option string))
  | ESave (id codeString : string) (r : result unit)
  | EInvokeLLM (prompt : string) (r : result aiResponse)
  | ECallDefault (args : list value) (r : result value)
  (** [r] is the [SyntaxError] thrown by the constructor, if any *)
  | EConstruct (at_ : site) (f : synth) (r : option error)
  | ECall (at_ : site) (f : synth) (args : list value) (r : result value).

(** State threaded through a run: the world, and the next identity for
    an [Error] created by [pause.js]. *)
Record St (W : Type) : Type := mkSt {
  world : W;
  fresh : nat
}.
Arguments mkSt {W} _ _.
Arguments world {W} _.
Arguments fresh {W} _.

(** The monad of [async] methods: state, exceptions, and the trace of
    external calls. *)
Definition M (W A : Type) : Type := St W -> result A * list event * St W.

Definition ret {W A} (a : A) : M W A := fun st => (Returned a, [], st).

Definition bind {W A B} (m : M W A) (k : A -> M W B) : M W B :=
  fun st =>
    match m st with
    | (Returned a, tr, st') =>
        let '(r, tr', st'') := k a st' in (r, tr ++ tr', st'')
    | (Thrown e, tr, st') => (Thrown e, tr, st')
    | (Pending, tr, st') => (Pending, tr, st')
    end.

Definition throw {W A} (e : error) : M W A := fun st => (Thrown e, [], st).

Definition pending {W A} : M W A := fun st => (Pending, [], st).

(** [try { m } catch (e) { h e }] *)
Definition tryCatch {W A} (m : M W A) (h : error -> M W A) : M W A :=
  fun st =>
    match m st with
    | (Thrown e, tr, st') =>
        let '(r, tr', st'') := h e st' in (r, tr ++ tr', st'')
    | other => other
    end.

(** an external call, recorded in the trace *)
Definition ext {W A} (ev : result A -> event) (f : external W A) : M W A :=
  fun st =>
    let '(r, w') := f (world st) in (r, [ev r], mkSt w' (fresh st)).

(** a call of a built-in of the engine, not recorded *)
Definition builtin {W A} (f : external W A) : M W A :=
  fun st =>
    let '(r, w') := f (world st) in (r, [], mkSt w' (fresh st)).

(** [new Error(message)] (the frames of the stack are not modelled) *)
Definition new_Error {W} (message : string) : M W error :=
  fun st =>
    (Returned {| err_id := Own (fresh st); err_name := "Error";
                 err_message := message;
                 err_stack := ("Error: " ++ message)%string |},
     [], mkSt (world st) (S (fresh st))).

#[global] Instance M_ret {W} : MRet (M W) := @ret W.
#[global] Instance M_bind {W} : MBind (M W) := fun A B k m => @bind W A B m k.

(** ** The LLM, the caller's function and the instance *)

(** The [DynamicStructuredTool] handed to the LLM. *)
Record CorrectionTool (W : Type) : Type := mkTool {
  tool_name : string;
  tool_description : string;
  tool_block_id_description : string;
  tool_corrected_code_description : string;
  tool_required : list string;
  tool_func : value -> value -> M W string
}.
Arguments tool_name {W} _.
Arguments tool_description {W} _.
Arguments tool_func {W} _ _ _.

(** [llm.bindTools([tool]).invoke([new HumanMessage({ content })])] *)
Record LLM (W : Type) : Type := mkLLM {
  llm_invoke : CorrectionTool W -> string -> external W aiResponse
}.
Arguments llm_invoke {W} _ _ _.

(** A caller-supplied function: its source text and [await f(...args)]. *)
Record callable (W : Type) : Type := mkCallable {
  fn_source : string;
  fn_call : list value -> external W value
}.
Arguments fn_source {W} _.
Arguments fn_call {W} _ _.

(** The argument [fnOrCode] of [run], by its [typeof]. *)
Inductive fnOrCodeArg (W : Type) : Type :=
  | IsFunction (f : callable W)
  | IsString (s : string)
  | IsOther (v : value).
Arguments IsFunction {W} f.
Arguments IsString {W} s.
Arguments IsOther {W} v.

(** The fields of a [Pause] instance. *)
Record Pause (W : Type) : Type := mkPause {
  (** resolves to the stored string or to [null] *)
  getFunctionFromDb : string -> external W (option string);
  saveFunctionToDb : string -> string -> external W unit;
  maxAiRetries : number;
  llm : option (LLM W)
}.
Arguments getFunctionFromDb {W} _ _.
Arguments saveFunctionToDb {W} _ _ _.
Arguments maxAiRetries {W} _.
Arguments llm {W} _.

(** The constructor's [options]; [None] is an absent field, and for
    [maxAiRetries] also a value that is not of type number. *)
Record Options (W : Type) : Type := mkOptions {
  opt_getFunctionFromDb : option (string -> external W (option string));
  opt_saveFunctionToDb : option (string -> string -> external W unit);
  opt_maxAiRetries : option number;
  opt_llm : option (LLM W)
}.
Arguments opt_getFunctionFromDb {W} _.
Arguments opt_saveFunctionToDb {W} _.
Arguments opt_maxAiRetries {W} _.
Arguments opt_llm {W} _.

(** [constructor(options)].  [OPENAI_API_KEY] is the truth value of the
    environment variable; [ChatOpenAI] is the outcome of
    [new ChatOpenAI(...)], [None] when it throws. *)
Definition constructor {W} (OPENAI_API_KEY : bool) (ChatOpenAI : option (LLM W))
    (options : Options W) : Pause W :=
  {| getFunctionFromDb :=
       default (fun _ w => (Returned None, w)) (opt_getFunctionFromDb options);
     saveFunctionToDb :=
       default (fun _ _ w => (Returned tt, w)) (opt_saveFunctionToDb options);
     maxAiRetries := default (Finite 3) (opt_maxAiRetries options);
     llm :=
       match opt_llm options with
       | Some l => Some l
       | None => if OPENAI_API_KEY then ChatOpenAI else None
       end |}.

(** ** The methods of [Pause] *)

Definition nl : string := String (ascii_of_nat 10) EmptyString.
Definition dq : string := String (ascii_of_nat 34) EmptyString.

(** the lines of a template literal *)
Fixpoint unlines (ls : list string) : string :=
  match ls with
  | [] => EmptyString
  | [l] => l
  | l :: rest => (l ++ nl ++ unlines rest)%string
  end.

(** [params.forEach((param, index) => { executionScope[param] = args[index]; })] *)
Fixpoint bindParams (params : list string) (index : nat) (args : list value)
    (executionScope : list (string * value)) : list (string * value) :=
  match params with
  | [] => executionScope
  | param :: rest =>
      bindParams rest (S index) args
        (assoc_set param (nth index args Undefined) executionScope)
  end.

Section Methods.
Context {W : Type} (eng : Engine W).

(** [new Function(...)] / [new AsyncFunction(...)] at a site of [pause.js] *)
Definition new_Function (at_ : site) (f : synth) : M W synth :=
  fun st =>
    if syntax_ok eng f then (Returned f, [EConstruct at_ f None], st)
    else
      let '(e, w') := syntax_error eng f (world st) in
      (Thrown e, [EConstruct at_ f (Some e)], mkSt w' (fresh st)).

(** [_buildCorrectionPrompt(id, description, originalCode, error, args)] *)
Definition _buildCorrectionPrompt (id description originalCode : string)
    (error : error) (args : list value) : string :=
  let contextInfo_error := error_toString error in
  let contextInfo_stack := err_stack error in
  let contextInfo_args := JSON_stringify eng (Arr args) in
  unlines [
    EmptyString;
    "You are an expert JavaScript debugging assistant. You are tasked with correcting a JavaScript function block identified by a specific ID. Review the provided information and use the 'propose_corrected_block' tool to submit your correction.";
    EmptyString;
    "BLOCK ID: " ++ id;
    "DESCRIPTION OF WHAT THE BLOCK SHOULD DO:";
    description;
    EmptyString;
    "ORIGINAL FUNCTION CODE (from the source file):";
    "```javascript";
    originalCode;
    "```";
    EmptyString;
    "ERROR THAT OCCURRED (when running the original code):";
    contextInfo_error;
    EmptyString;
    "STACK TRACE:";
    contextInfo_stack;
    EmptyString;
    "FUNCTION ARGUMENTS (passed when the error occurred):";
    contextInfo_args;
    EmptyString;
    "Your task is to provide a corrected version of the function code.";
    EmptyString;
    "CORRECTION REQUIREMENTS:";
    "1. The corrected code must fix the specific error reported.";
    "2. It must fulfill the original description of what the block should do.";
    "3. It must be a complete, syntactically valid JavaScript function string (e.g., '() => new Date()', or 'async (x) => { return x * x; }').";
    "4. The function string should be self-contained or correctly use variables from its closure if applicable (be mindful of the scope when new Function() is used for execution).";
    "5. If the original function took arguments, the corrected function string must also accept them.";
    EmptyString;
    "TOOL USAGE:";
    "- You MUST use the 'propose_corrected_block' tool.";
    "- The arguments for the tool MUST be a JSON object with two keys:";
    "  1. 'block_id': This MUST be the string " ++ dq ++ id ++ dq ++ ".";
    "  2. 'corrected_code': This MUST be the corrected JavaScript function string.";
    EmptyString;
    "Example of how to call the tool (this is what you should output if you decide to use the tool):";
    "If the block ID is " ++ dq ++ "test-123" ++ dq
      ++ " and the corrected code is " ++ dq ++ "() => { return 42; }" ++ dq
      ++ ", you would call the tool 'propose_corrected_block' with arguments: { "
      ++ dq ++ "block_id" ++ dq ++ ": " ++ dq ++ "test-123" ++ dq ++ ", "
      ++ dq ++ "corrected_code" ++ dq ++ ": " ++ dq ++ "() => { return 42; }" ++ dq ++ " }";
    EmptyString;
    "Do not add any other text or explanation outside of the tool call. Only call the tool."
  ]%string.

(** [new Function(`return ${correctedCode}`)()]: the text is compiled
    and the compiled function is called. *)
Definition checkSyntax (correctedCode : string) : M W value :=
  f ← new_Function AtValidation
        (mkSynth false [] ("return " ++ correctedCode)%string);
  ext (ECall AtValidation f []) (call_fn eng f []).

(** [_createCorrectionTool(id)] *)
Definition _createCorrectionTool (id : string) : CorrectionTool W :=
  {| tool_name := "propose_corrected_block";
     tool_description :=
       ("Propose a corrected, syntactically valid JavaScript function string to fix an error in block ID "
          ++ id ++ ".")%string;
     tool_block_id_description :=
       ("The unique ID of the code block (must be " ++ id ++ ").")%string;
     tool_corrected_code_description :=
       ("The corrected, complete, and syntactically valid JavaScript function string (e.g., "
          ++ dq ++ "() => new Date()" ++ dq ++ ").")%string;
     tool_required := ["block_id"; "corrected_code"];
     tool_func := fun block_id corrected_code =>
       if negb (strictEqStr block_id id) then
         ret ("Tool Error: Incorrect block_id. Expected " ++ id ++ ", got "
                 ++ toStr eng block_id)%string
       else
         tryCatch
           (_ ← checkSyntax (toStr eng corrected_code);
            ret ("Successfully validated proposed corrected code for block "
                    ++ toStr eng block_id ++ ".")%string)
           (fun e =>
              ret ("Tool Error: Proposed code is not valid JavaScript syntax: "
                      ++ err_message e)%string) |}.

(** The checks of [_attemptAICorrection] on the response of the LLM
    (everything after [llmWithTool.invoke]). *)
Definition validateResponse (id : string) (aiResponse : aiResponse) : M W string :=
  match tool_calls aiResponse with
  | None | Some [] =>
      e ← new_Error
            ("AI failed to propose a correction using the tool. Response content: "
               ++ content aiResponse)%string;
      throw e
  | Some (toolCall :: _) =>
      parsedArgs ←
        match tc_args toolCall with
        | Str s =>
            tryCatch
              (builtin (JSON_parse eng s))
              (fun parseError =>
                 e ← new_Error
                       ("Failed to parse tool call arguments string: "
                          ++ err_message parseError)%string;
                 throw e)
        | parsedArgs => ret parsedArgs
        end;
      if negb (String.eqb (tc_name toolCall) "propose_corrected_block")
         || negb (String.eqb (typeOf parsedArgs) "object")
         || match parsedArgs with Null => true | _ => false end
      then
        e ← new_Error
              ("AI responded with unexpected tool call structure or args: "
                 ++ JSON_stringify eng (toolCall_value toolCall))%string;
        throw e
      else
        let correctedCode := getProp parsedArgs "corrected_code" in
        let receivedBlockId := getProp parsedArgs "block_id" in
        if negb (strictEqStr receivedBlockId id) then
          e ← new_Error
                ("AI tool call had mismatched block_id. Expected " ++ id
                   ++ ", got " ++ toStr eng receivedBlockId)%string;
          throw e
        else if negb (truthy correctedCode)
                || negb (String.eqb (typeOf correctedCode) "string") then
          e ← new_Error "AI tool call did not return a valid corrected_code string.";
          throw e
        else
          match correctedCode with
          | Str correctedCode =>
              _ ← tryCatch (checkSyntax correctedCode)
                    (fun e =>
                       e' ← new_Error
                              ("AI proposed invalid JavaScript syntax: "
                                 ++ err_message e ++ nl ++ "Code: " ++ correctedCode)%string;
                       throw e');
              ret correctedCode
          | _ => pending (* unreachable: typeof correctedCode is string *)
          end
  end.

(** [_attemptAICorrection(id, description, originalCodeString,
    originalError, args, attemptNumber)] *)
Definition _attemptAICorrection (l : LLM W) (id description originalCodeString : string)
    (originalError : error) (args : list value) (attemptNumber : Z) : M W string :=
  let correctionToolInstance := _createCorrectionTool id in
  let promptText :=
    _buildCorrectionPrompt id description originalCodeString originalError args in
  aiResponse ← ext (EInvokeLLM promptText)
                 (llm_invoke l correctionToolInstance promptText);
  validateResponse id aiResponse.

(** the [try] block of [_executeFunctionString] *)
Definition executeFunctionString_try (codeString : string) (args : list value)
  : M W value :=
  let funcBody := ("return (" ++ codeString ++ ")(...arguments);")%string in
  let names := argNames (length args) in
  fn ← new_Function AtFunctionString
         (mkSynth (isLikelyAsyncString codeString) names
            (replaceFirst "...arguments" (joinComma names) funcBody));
  ext (ECall AtFunctionString fn args) (call_await eng fn args).

(** [_executeFunctionString(codeString, id, ...args)] *)
Definition _executeFunctionString (codeString id : string) (args : list value)
  : M W value :=
  tryCatch (executeFunctionString_try codeString args)
    (fun error =>
       throw (set_message error
                ("Error executing function string for ID " ++ id ++ ": "
                   ++ err_message error)%string)).

(** the inner [evalWrapper] of [_executeCodeStringViaEval] *)
Definition evalWrapper (codeString : string) (scope : list (string * value))
    (args : list value) : M W value :=
  let params := inferParams codeString in
  let executionScope := bindParams params 0 args scope in
  let body := inferBody codeString in
  let keys := map fst executionScope in
  let values := map snd executionScope in
  evalFn ← new_Function AtEval (mkSynth true keys (" " ++ body ++ " ")%string);
  ext (ECall AtEval evalFn values) (call_await eng evalFn values).

(** [_executeCodeStringViaEval(codeString, id, scope, ...args)] *)
Definition _executeCodeStringViaEval (codeString id : string)
    (scope : list (string * value)) (args : list value) : M W value :=
  tryCatch (evalWrapper codeString scope args)
    (fun error =>
       throw (set_message error
                ("Error executing code string via eval for ID " ++ id ++ ": "
                   ++ err_message error)%string)).

(** the [else] branch of the [try] block of [run]: the local version *)
Definition run_local (id : string) (fnOrCode : fnOrCodeArg W)
    (scope : list (string * value)) (args : list value) : M W value :=
  match fnOrCode with
  | IsFunction f => ext (ECallDefault args) (fn_call f args)
  | IsString s => _executeCodeStringViaEval s id scope args
  | IsOther _ => pending (* excluded before the try block *)
  end.

(** the [try] block of [run]: fetch, then execute the persisted text or
    the default *)
Definition run_try (p : Pause W) (id : string) (fnOrCode : fnOrCodeArg W)
    (scope : list (string * value)) (args : list value) : M W value :=
  savedFunctionString ← ext (EFetch id) (getFunctionFromDb p id);
  match savedFunctionString with
  | Some saved =>
      if truthy (Str saved) then _executeFunctionString saved id args
      else run_local id fnOrCode scope args
  | None => run_local id fnOrCode scope args
  end.

(** one pass through the body of the [for] loop: its [try] block *)
Definition attempt_try (p : Pause W) (l : LLM W) (id description originalCodeString : string)
    (error : error) (args : list value) (attempt : Z) : M W value :=
  correctedCode ←
    _attemptAICorrection l id description originalCodeString error args attempt;
  _ ← ext (ESave id correctedCode) (saveFunctionToDb p id correctedCode);
  _executeFunctionString correctedCode id args.

(** the message of the error thrown when the retries are used up *)
Definition maxRetriesMessage (id : string) (lastAiAttemptError : option error)
    (error : error) : string :=
  ("Max AI retries reached for block ID: " ++ id ++ ". Last AI error: "
     ++ match lastAiAttemptError with
        | Some e => err_message e
        | None => "N/A"
        end
     ++ ". Original error: " ++ err_message error)%string.

(** [for (let attempt = 1; attempt <= this.maxAiRetries; attempt++)],
    entered at [attempt]; [fuel] bounds the number of passes.  When the
    condition fails the loop is left and [run] resolves with [undefined]. *)
Fixpoint repairLoop (fuel : nat) (p : Pause W) (l : LLM W)
    (id description originalCodeString : string) (error : error)
    (args : list value) (attempt : Z) : M W value :=
  match fuel with
  | O => pending
  | S fuel' =>
      if int_le_number attempt (maxAiRetries p) then
        tryCatch
          (attempt_try p l id description originalCodeString error args attempt)
          (fun aiAttemptError =>
             let lastAiAttemptError := Some aiAttemptError in
             if int_eq_number attempt (maxAiRetries p) then
               e ← new_Error (maxRetriesMessage id lastAiAttemptError error);
               throw e
             else
               repairLoop fuel' p l id description originalCodeString error args
                 (attempt + 1)%Z)
      else ret Undefined
  end.

(** the [catch] block of [run] *)
Definition run_catch (fuel : nat) (p : Pause W) (id description originalCodeString : string)
    (args : list value) (error : error) : M W value :=
  match llm p with
  | Some l => repairLoop fuel p l id description originalCodeString error args 1%Z
  | None => throw error
  end.

(** [run(id, description, fnOrCode, scope, ...args)] *)
Definition run (fuel : nat) (p : Pause W) (id description : string)
    (fnOrCode : fnOrCodeArg W) (scope : list (string * value))
    (args : list value) : M W value :=
  match fnOrCode with
  | IsOther _ =>
      e ← new_Error "[Pause] Invalid type for fnOrCode: must be a function or string.";
      throw e
  | IsFunction f =>
      let originalCodeString := fn_source f in
      tryCatch (run_try p id fnOrCode scope args)
        (run_catch fuel p id description originalCodeString args)
  | IsString s =>
      let originalCodeString := s in
      tryCatch (run_try p id fnOrCode scope args)
        (run_catch fuel p id description originalCodeString args)
  end.
End Methods.

(** ** Reading the outcome of a run *)

Definition resultOf {W A} (x : result A * list event * St W) : result A := x.1.1.
Definition traceOf {W A} (x : result A * list event * St W) : list event := x.1.2.
Definition stateOf {W A} (x : result A * list event * St W) : St W := x.2.

(** [typeof fnOrCode] is ['function'] or ['string'] *)
Definition isFunctionOrString {W} (fnOrCode : fnOrCodeArg W) : bool :=
  match fnOrCode with
  | IsOther _ => false
  | _ => true
  end.

(** [typeof fnOrCode === 'function' ? fnOrCode.toString() : fnOrCode] *)
Definition originalCodeStringOf {W} (fnOrCode : fnOrCodeArg W) : option string :=
  match fnOrCode with
  | IsFunction f => Some (fn_source f)
  | IsString s => Some s
  | IsOther _ => None
  end.

(** the event is an invocation of the LLM *)
Definition isInvoke (ev : event) : bool :=
  match ev with
  | EInvokeLLM _ _ => true
  | _ => false
  end.

(** the event is a call of the store's save function *)
Definition isSave (ev : event) : bool :=
  match ev with
  | ESave _ _ _ => true
  | _ => false
  end.

(** the event belongs to an execution of the caller-supplied default:
    the call of the function, or the textual evaluation of the string *)
Definition isLocalExecution (ev : event) : bool :=
  match ev with
  | ECallDefault _ _ => true
  | EConstruct AtEval _ _ => true
  | ECall AtEval _ _ _ => true
  | _ => false
  end.

(** the prompts sent to the LLM, in order *)
Definition prompts (tr : list event) : list string :=
  omap (fun ev => match ev with EInvokeLLM prompt _ => Some prompt | _ => None end) tr.

(** the calls of the store's save function, in order *)
Definition saves (tr : list event) : list (string * string) :=
  omap (fun ev => match ev with ESave id c _ => Some (id, c) | _ => None end) tr.

(** how many times the trace invokes the LLM *)
Definition invocations (tr : list event) : nat := length (filter isInvoke tr).



(** the events that the [try] block of [run] can emit *)
Definition fromTryBlock (ev : event) : bool :=
  match ev with
  | EFetch _ _ | ECallDefault _ _ => true
  | EConstruct AtEval _ _ | ECall AtEval _ _ _ => true
  | EConstruct AtFunctionString _ _ | ECall AtFunctionString _ _ _ => true
  | _ => false
  end.

(** the events that the [catch] block of [run] can emit, for the block
    [id] and the prompt [prompt] *)
Definition fromCatchBlock (id prompt : string) (ev : event) : Prop :=
  match ev with
  | EInvokeLLM prompt' _ => prompt' = prompt
  | ESave id' _ _ => id' = id
  | EConstruct AtValidation _ _ | ECall AtValidation _ _ _ => True
  | EConstruct AtFunctionString _ _ | ECall AtFunctionString _ _ _ => True
  | _ => False
  end.




(** the events [before] a save of [c] end with an invocation of the LLM
    whose response passed the checks of [_attemptAICorrection] for the
    block [id] and yielded [c] *)
Definition accepted {W} (eng : Engine W) (id c : string) (before : list event) : Prop :=
  exists tr0 prompt resp trv sa sb,
    before = tr0 ++ EInvokeLLM prompt (Returned resp) :: trv
    /\ validateResponse eng id resp sa = (Returned c, trv, sb).

(** every save of [tr], read after the events [pre], is made under [id]
    with an accepted correction *)
Definition savesAreAccepted {W} (eng : Engine W) (id : string)
    (pre tr : list event) : Prop :=
  forall tr1 id' c res tr2,
    tr = tr1 ++ ESave id' c res :: tr2 ->
    id' = id /\ accepted eng id c (pre ++ tr1).

(** every event of every trace of [m] satisfies [P] *)
Definition emits {W A} (P : event -> Prop) (m : M W A) : Prop :=
  forall st, Forall P (traceOf (m st)).

(** ** A concrete environment

    The in-memory store of [examples/basic-usage.js], the mocked LLM of
    [tests/pause.test.js], and an engine given by a table of what
    Node.js does on the few texts used below. *)
Module Demo.

Record world : Type := mkWorld {
  (** [inMemoryDb] *)
  db : gmap string string;
  (** identity of the next [Error] created by the environment *)
  next_error : nat;
  (** how many times the LLM was invoked *)
  llm_calls : nat
}.

Definition w0 : world := mkWorld ∅ 0 0.
Definition st0 : St world := mkSt w0 0.

(** the environment throws a new [Error] object *)
Definition raise {A} (name message : string) : external world A :=
  fun w =>
    (Thrown {| err_id := Foreign (next_error w); err_name := name;
               err_message := message;
               err_stack := (name ++ ": " ++ message)%string |},
     mkWorld (db w) (S (next_error w)) (llm_calls w)).

(** [async (id) => inMemoryDb[id] || null] *)
Definition getFunctionFromDb (id : string) : external world (option string) :=
  fun w =>
    (Returned match db w !! id with
              | Some s => if truthy (Str s) then Some s else None
              | None => None
              end, w).

(** [async (id, codeString) => { inMemoryDb[id] = codeString; }] *)
Definition saveFunctionToDb (id codeString : string) : external world unit :=
  fun w =>
    (Returned tt, mkWorld (<[id := codeString]> (db w)) (next_error w) (llm_calls w)).

(** a store that is down *)
Definition brokenFetch (id : string) : external world (option string) :=
  raise "Error" "store unavailable".

Definition brokenSave (id codeString : string) : external world unit :=
  raise "Error" "store is read-only".

(** the number bound to a parameter name *)
Fixpoint argOf (name : string) (params : list string) (args : list value) : Q :=
  match params, args with
  | p :: params', Num (Finite q) :: args' =>
      if String.eqb p name then q else argOf name params' args'
  | _ :: params', _ :: args' => argOf name params' args'
  | _, _ => 0
  end.

Definition calls (f : synth) (args : list value) : external world value :=
  fun w =>
    let body := sy_body f in
    if String.eqb body " return p + q " then
      (Returned (Num (Finite (argOf "p" (sy_params f) args
                                + argOf "q" (sy_params f) args))), w)
    else if String.eqb body "return (() => nonExistentDbVar)();" then
      raise "ReferenceError" "nonExistentDbVar is not defined" w
    else if String.eqb body "return (() => 'Fixed DB Code')();" then
      (Returned (Str "Fixed DB Code"), w)
    else if String.eqb body "return () => 'Fixed DB Code'" then
      (Returned (Fun "() => 'Fixed DB Code'"), w)
    else if String.eqb body "return (() => { throw new Error('boom') })()" then
      raise "Error" "boom" w
    else if String.eqb body
              ("return (() => " ++ dq ++ "Correct from DB" ++ dq ++ " )();")%string then
      (Returned (Str "Correct from DB"), w)
    else (Returned Undefined, w).

Definition engine : Engine world :=
  {| syntax_ok := fun f =>
       negb (bool_decide (is_Some (findFirst "syntax error here" (sy_body f))));
     syntax_error := fun f w =>
       match raise (A := unit) "SyntaxError" "Unexpected identifier 'error'" w with
       | (Thrown e, w') => (e, w')
       | (_, w') => (mkError (Foreign 0) EmptyString EmptyString EmptyString, w')
       end;
     call_fn := calls;
     call_await := calls;
     JSON_parse := fun s => raise "SyntaxError" "Unexpected end of JSON input";
     JSON_stringify := fun v =>
       match v with
       | Arr [] => "[]"
       | Arr _ => "[...]"
       | _ => "{...}"
       end;
     toStr := fun v =>
       match v with
       | Str s => s
       | Undefined => "undefined"
       | Null => "null"
       | Bool true => "true"
       | Bool false => "false"
       | _ => "[object Object]"
       end |}.

(** an LLM that always answers with a call of [propose_corrected_block]
    for [id] carrying [correctedCode] *)
Definition proposing (id correctedCode : string) : LLM world :=
  {| llm_invoke := fun _ _ w =>
       (Returned {| tool_calls :=
                      Some [ {| tc_name := "propose_corrected_block";
                                tc_args := Obj [("block_id", Str id);
                                                ("corrected_code", Str correctedCode)];
                                tc_id := "call_mock" |} ];
                    content := EmptyString |},
        mkWorld (db w) (next_error w) (S (llm_calls w))) |}.

(** the mock of the retry test: invalid syntax every time *)
Definition stubbornLLM (id : string) : LLM world :=
  proposing id "() => { syntax error here; }".

Definition helpfulLLM (id : string) : LLM world :=
  proposing id "() => 'Fixed DB Code'".

(** proposes an expression that is valid syntax and throws when evaluated *)
Definition eagerLLM (id : string) : LLM world :=
  proposing id "(() => { throw new Error('boom') })()".

(** [() => { throw new Error("Initial deliberate error for retry test"); }] *)
Definition incorrectFn : callable world :=
  {| fn_source :=
       ("() => { throw new Error(" ++ dq ++ "Initial deliberate error for retry test"
          ++ dq ++ "); }")%string;
     fn_call := fun _ => raise "Error" "Initial deliberate error for retry test" |}.

(** [() => 'This local function is fine and should not run.'] *)
Definition localFn : callable world :=
  {| fn_source := "() => 'This local function is fine and should not run.'";
     fn_call := fun _ w =>
       (Returned (Str "This local function is fine and should not run."), w) |}.

Definition incorrectDbFunctionString : string := "() => nonExistentDbVar".

(** ['() => "Correct from DB" '] *)
Definition dbCodeString : string :=
  ("() => " ++ dq ++ "Correct from DB" ++ dq ++ " ")%string.

(** the store after [saveFunctionToDb(id, incorrectDbFunctionString)] *)
Definition withBadDbCode (id : string) : St world :=
  mkSt (mkWorld {[ id := incorrectDbFunctionString ]} 0 0) 0.

Definition pauseOf (get : string -> external world (option string))
    (save : string -> string -> external world unit)
    (maxRetries : number) (l : option (LLM world)) : Pause world :=
  constructor false None
    {| opt_getFunctionFromDb := Some get;
       opt_saveFunctionToDb := Some save;
       opt_maxAiRetries := Some maxRetries;
       opt_llm := l |}.

Definition pauseWith : number -> option (LLM world) -> Pause world :=
  pauseOf getFunctionFromDb saveFunctionToDb.

End Demo.

(** ** Readings used by the further properties *)

(** the function that [_executeFunctionString] synthesizes for a text and
    its arguments *)
Definition functionStringSynth (codeString : string) (args : list value) : synth :=
  mkSynth (isLikelyAsyncString codeString) (argNames (length args))
    (replaceFirst "...arguments" (joinComma (argNames (length args)))
       ("return (" ++ codeString ++ ")(...arguments);")%string).



(** the external calls settle: they return or throw *)
Definition settled {A} (r : result A) : Prop := r <> Pending.





(** the event is a read of the store *)
Definition isFetch (ev : event) : bool :=
  match ev with
  | EFetch _ _ => true
  | _ => false
  end.

(** the event is a call of the caller-supplied default: of the function,
    or of the function built from the default string *)
Definition isDefaultCall (ev : event) : bool :=
  match ev with
  | ECallDefault _ _ => true
  | ECall AtEval _ _ _ => true
  | _ => false
  end.

(** how many events of the trace satisfy [P] *)
Definition count (P : event -> bool) (tr : list event) : nat := length (filter P tr).

(** every character of the text satisfies [P] *)
Fixpoint allChars (P : ascii -> bool) (s : string) : bool :=
  match s with
  | EmptyString => true
  | String c rest => P c && allChars P rest
  end.

(** the text begins, or ends, with a white-space character *)
Definition startsWithSpace (s : string) : bool :=
  match s with
  | String c _ => isSpace c
  | EmptyString => false
  end.

Definition endsWithSpace (s : string) : bool := startsWithSpace (rev_string s).

(** a character that the parameter pattern and the split leave inside a
    parameter: not a closing parenthesis, a line terminator or a comma *)
Definition parameterChar (c : ascii) : bool :=
  (negb (Ascii.eqb c ")"%char) && negb (isLineTerminator c))
  && negb (Ascii.eqb c ","%char).

(** the index of the last occurrence of [k] among the parameters, which
    are numbered from [index] *)
Fixpoint lastIndexOf (k : string) (params : list string) (index : nat) : option nat :=
  match params with
  | [] => None
  | param :: rest =>
      match lastIndexOf k rest (S index) with
      | Some i => Some i
      | None => if String.eqb param k then Some index else None
      end
  end.

(** * Properties *)

(** ** The text helpers on the forms of function text *)

Example inferParams_pq : inferParams "(p, q) => p + q" = ["p"; "q"].
Proof. reflexivity. Qed.

Example inferBody_arrow : inferBody "(p, q) => p + q" = "return p + q".
Proof. reflexivity. Qed.

Example inferBody_block :
  inferBody "(p, q) => { return p + q; }" = " return p + q; ".
Proof. reflexivity. Qed.

Example inferBody_function :
  inferBody "function (p, q) { return p + q; }" = " return p + q; ".
Proof. reflexivity. Qed.

Example argNames_3 : argNames 3 = ["arg0"; "arg1"; "arg2"].
Proof. reflexivity. Qed.

Example isLikelyAsync_examples :
  isLikelyAsyncString "async (x) => x" = true /\
  isLikelyAsyncString "  function f() {}" = true /\
  isLikelyAsyncString "() => 1" = false /\
  isLikelyAsyncString "async x => x" = false.
Proof. repeat split; reflexivity. Qed.

(** ** Comparison of the loop counter with an integer bound *)



(** ** Equations of the monad *)

Section MonadFacts.
Context {W : Type}.

Lemma bind_Returned {A B} (m : M W A) (k : A -> M W B) st a tr st' :
  m st = (Returned a, tr, st') ->
  bind m k st = (resultOf (k a st'), tr ++ traceOf (k a st'), stateOf (k a st')).
Proof.
  intros H. unfold bind. rewrite H. by destruct (k a st') as [[r tr'] st''].
Qed.

Lemma bind_Thrown {A B} (m : M W A) (k : A -> M W B) st e tr st' :
  m st = (Thrown e, tr, st') -> bind m k st = (Thrown e, tr, st').
Proof. intros H. unfold bind. by rewrite H. Qed.

Lemma tryCatch_Returned {A} (m : M W A) h st a tr st' :
  m st = (Returned a, tr, st') -> tryCatch m h st = (Returned a, tr, st').
Proof. intros H. unfold tryCatch. by rewrite H. Qed.

Lemma tryCatch_Thrown {A} (m : M W A) h st e tr st' :
  m st = (Thrown e, tr, st') ->
  tryCatch m h st = (resultOf (h e st'), tr ++ traceOf (h e st'), stateOf (h e st')).
Proof.
  intros H. unfold tryCatch. rewrite H. by destruct (h e st') as [[r tr'] st''].
Qed.

Lemma tryCatch_Pending {A} (m : M W A) h st tr st' :
  m st = (Pending, tr, st') -> tryCatch m h st = (Pending, tr, st').
Proof. intros H. unfold tryCatch. by rewrite H. Qed.

(** ** Events that a computation can emit *)

Lemma emits_ret {A} P (a : A) : emits P (ret (W := W) a).
Proof. intros st. constructor. Qed.

Lemma emits_throw {A} P e : emits P (throw (W := W) (A := A) e).
Proof. intros st. constructor. Qed.

Lemma emits_pending {A} P : emits P (pending (W := W) (A := A)).
Proof. intros st. constructor. Qed.

Lemma emits_new_Error P msg : emits P (new_Error (W := W) msg).
Proof. intros st. constructor. Qed.

Lemma emits_builtin {A} P (f : external W A) : emits P (builtin f).
Proof. intros st. unfold builtin. destruct (f (world st)). constructor. Qed.

Lemma emits_ext {A} (P : event -> Prop) ev (f : external W A) :
  (forall r, P (ev r)) -> emits P (ext ev f).
Proof.
  intros H st. unfold ext. destruct (f (world st)). simpl.
  constructor; [apply H | constructor].
Qed.

Lemma emits_bind {A B} P (m : M W A) (k : A -> M W B) :
  emits P m -> (forall a, emits P (k a)) -> emits P (bind m k).
Proof.
  intros Hm Hk st. unfold bind. specialize (Hm st).
  destruct (m st) as [[[a|e|] tr] st']; simpl in *; try done.
  specialize (Hk a st'). destruct (k a st') as [[r tr'] st'']; simpl in *.
  by apply Forall_app.
Qed.

Lemma emits_tryCatch {A} P (m : M W A) h :
  emits P m -> (forall e, emits P (h e)) -> emits P (tryCatch m h).
Proof.
  intros Hm Hh st. unfold tryCatch. specialize (Hm st).
  destruct (m st) as [[[a|e|] tr] st']; simpl in *; try done.
  specialize (Hh e st'). destruct (h e st') as [[r tr'] st'']; simpl in *.
  by apply Forall_app.
Qed.

Lemma emits_new_Function P (eng : Engine W) at_ f :
  (forall r, P (EConstruct at_ f r)) -> emits P (new_Function eng at_ f).
Proof.
  intros H st. unfold new_Function. destruct (syntax_ok eng f); simpl.
  - constructor; [apply H | constructor].
  - destruct (syntax_error eng f (world st)). simpl.
    constructor; [apply H | constructor].
Qed.

End MonadFacts.

(** ** Footprints of the methods *)

Section Footprints.
Context {W : Type} (eng : Engine W).

Ltac unbind := unfold mbind, M_bind.

Ltac footprint :=
  repeat lazymatch goal with
    | |- emits _ (ret _) => apply emits_ret
    | |- emits _ (throw _) => apply emits_throw
    | |- emits _ pending => apply emits_pending
    | |- emits _ (new_Error _) => apply emits_new_Error
    | |- emits _ (builtin _) => apply emits_builtin
    | |- emits _ (ext _ _) => apply emits_ext; intros; done
    | |- emits _ (new_Function _ _ _) => apply emits_new_Function; intros; done
    | |- emits _ (bind _ _) => apply emits_bind; [| intros ?]
    | |- emits _ (tryCatch _ _) => apply emits_tryCatch; [| intros ?]
    end.

Lemma checkSyntax_footprint (P : event -> Prop) c :
  (forall f r, P (EConstruct AtValidation f r)) ->
  (forall f a r, P (ECall AtValidation f a r)) ->
  emits P (checkSyntax eng c).
Proof.
  intros Hc Hr. unfold checkSyntax. unbind.
  apply emits_bind; [by apply emits_new_Function|].
  intros f. by apply emits_ext.
Qed.

Lemma validateResponse_footprint (P : event -> Prop) id resp :
  (forall f r, P (EConstruct AtValidation f r)) ->
  (forall f a r, P (ECall AtValidation f a r)) ->
  emits P (validateResponse eng id resp).
Proof.
  intros Hc Hr. unfold validateResponse. unbind.
  destruct (tool_calls resp) as [[|tc tcs]|]; [footprint| |footprint].
  apply emits_bind.
  - destruct (tc_args tc); footprint.
  - intros parsedArgs.
    destruct (_ || _); [footprint|].
    destruct (negb (strictEqStr _ _)); [footprint|].
    destruct (_ || _); [footprint|].
    destruct (getProp parsedArgs "corrected_code"); footprint.
    by apply checkSyntax_footprint.
Qed.

Lemma attemptAICorrection_footprint l id desc orig err args n :
  emits (fromCatchBlock id (_buildCorrectionPrompt eng id desc orig err args))
        (_attemptAICorrection eng l id desc orig err args n).
Proof.
  unfold _attemptAICorrection. unbind. footprint.
  by apply validateResponse_footprint.
Qed.

Lemma executeFunctionString_footprint (P : event -> Prop) codeString id args :
  (forall f r, P (EConstruct AtFunctionString f r)) ->
  (forall f a r, P (ECall AtFunctionString f a r)) ->
  emits P (_executeFunctionString eng codeString id args).
Proof.
  intros Hc Hr. unfold _executeFunctionString, executeFunctionString_try. unbind.
  apply emits_tryCatch; [|intros; apply emits_throw].
  apply emits_bind; [by apply emits_new_Function|].
  intros f. by apply emits_ext.
Qed.

Lemma executeCodeStringViaEval_footprint codeString id scope args :
  emits (fun ev => fromTryBlock ev = true)
        (_executeCodeStringViaEval eng codeString id scope args).
Proof. unfold _executeCodeStringViaEval, evalWrapper. unbind. footprint. Qed.

Lemma run_try_footprint p id fnOrCode scope args :
  emits (fun ev => fromTryBlock ev = true) (run_try eng p id fnOrCode scope args).
Proof.
  unfold run_try. unbind. footprint.
  assert (emits (fun ev => fromTryBlock ev = true)
                (run_local eng id fnOrCode scope args)) as Hlocal.
  { unfold run_local. destruct fnOrCode; footprint.
    apply executeCodeStringViaEval_footprint. }
  destruct a as [saved|]; [|done].
  destruct (truthy (Str saved)); [|done].
  by apply executeFunctionString_footprint.
Qed.

Lemma attempt_try_footprint p l id desc orig err args n :
  emits (fromCatchBlock id (_buildCorrectionPrompt eng id desc orig err args))
        (attempt_try eng p l id desc orig err args n).
Proof.
  unfold attempt_try. unbind. footprint.
  - apply attemptAICorrection_footprint.
  - by apply executeFunctionString_footprint.
Qed.

Lemma repairLoop_footprint fuel p l id desc orig err args n :
  emits (fromCatchBlock id (_buildCorrectionPrompt eng id desc orig err args))
        (repairLoop eng fuel p l id desc orig err args n).
Proof.
  revert n. induction fuel as [|fuel IH]; intros n; simpl; [footprint|].
  destruct (int_le_number n (maxAiRetries p)); [|footprint].
  apply emits_tryCatch; [apply attempt_try_footprint|].
  intros e. destruct (int_eq_number n (maxAiRetries p)); [unbind; footprint|].
  apply IH.
Qed.

Lemma run_catch_footprint fuel p id desc orig args err :
  emits (fromCatchBlock id (_buildCorrectionPrompt eng id desc orig err args))
        (run_catch eng fuel p id desc orig args err).
Proof.
  unfold run_catch. destruct (llm p); [apply repairLoop_footprint|footprint].
Qed.

End Footprints.

(** ** The resolver: which variant runs *)

Section Resolver.
Context {W : Type} (eng : Engine W).

Lemma truthy_Str_nonempty (s : string) :
  s <> EmptyString -> truthy (Str s) = true.
Proof. intros H. simpl. by apply String.eqb_neq in H as ->. Qed.

(** With persisted text, the [try] block is the fetch followed by the
    execution of that text. *)
Lemma run_try_persisted (p : Pause W) id fnOrCode scope args st T w1 :
  getFunctionFromDb p id (world st) = (Returned (Some T), w1) ->
  T <> EmptyString ->
  let x := _executeFunctionString eng T id args (mkSt w1 (fresh st)) in
  run_try eng p id fnOrCode scope args st
  = (resultOf x, EFetch id (Returned (Some T)) :: traceOf x, stateOf x).
Proof.
  intros Hfetch HT x. unfold run_try, mbind, M_bind.
  rewrite (bind_Returned _ _ st (Some T) [EFetch id (Returned (Some T))]
             (mkSt w1 (fresh st))).
  - by rewrite truthy_Str_nonempty.
  - unfold ext. by rewrite Hfetch.
Qed.

(** Without persisted text, the [try] block is the fetch followed by the
    local version. *)
Lemma run_try_local (p : Pause W) id fnOrCode scope args st saved w1 :
  getFunctionFromDb p id (world st) = (Returned saved, w1) ->
  saved = None \/ saved = Some EmptyString ->
  let x := run_local eng id fnOrCode scope args (mkSt w1 (fresh st)) in
  run_try eng p id fnOrCode scope args st
  = (resultOf x, EFetch id (Returned saved) :: traceOf x, stateOf x).
Proof.
  intros Hfetch Hsaved x. unfold run_try, mbind, M_bind.
  rewrite (bind_Returned _ _ st saved [EFetch id (Returned saved)]
             (mkSt w1 (fresh st))).
  - by destruct Hsaved as [-> | ->].
  - unfold ext. by rewrite Hfetch.
Qed.

(** A failing fetch fails the [try] block. *)
Lemma run_try_fetch_Thrown (p : Pause W) id fnOrCode scope args st e w1 :
  getFunctionFromDb p id (world st) = (Thrown e, w1) ->
  run_try eng p id fnOrCode scope args st
  = (Thrown e, [EFetch id (Thrown e)], mkSt w1 (fresh st)).
Proof.
  intros Hfetch. unfold run_try, mbind, M_bind.
  apply bind_Thrown. unfold ext. by rewrite Hfetch.
Qed.

(** [run] on a function or a string is its [try] block guarded by its
    [catch] block. *)
Lemma run_unfold fuel (p : Pause W) id description fnOrCode scope args code :
  originalCodeStringOf fnOrCode = Some code ->
  run eng fuel p id description fnOrCode scope args
  = tryCatch (run_try eng p id fnOrCode scope args)
             (run_catch eng fuel p id description code args).
Proof. destruct fnOrCode; simpl; intros H; by inversion H. Qed.

Lemma run_invalid_type fuel (p : Pause W) id description v scope args st :
  traceOf (run eng fuel p id description (IsOther v) scope args st) = [].
Proof. reflexivity. Qed.


End Resolver.


(** ** The retry controller *)

Section Retry.
Context {W : Type} (eng : Engine W).








End Retry.



(** ** The repair context *)

Section RepairContext.
Context {W : Type} (eng : Engine W).

(** Every prompt sent to the LLM during a run is built from the text of
    [fnOrCode] and from the error thrown by the [try] block. *)
Lemma prompts_are_built_from_fnOrCode
    fuel (p : Pause W) id description fnOrCode scope args st code :
  originalCodeStringOf fnOrCode = Some code ->
  forall prompt r,
    In (EInvokeLLM prompt r)
       (traceOf (run eng fuel p id description fnOrCode scope args st)) ->
    exists err tr0 st0,
      run_try eng p id fnOrCode scope args st = (Thrown err, tr0, st0)
      /\ prompt = _buildCorrectionPrompt eng id description code err args.
Proof.
  intros Hcode prompt r Hin. apply list_elem_of_In in Hin.
  rewrite (run_unfold _ _ _ _ _ _ _ _ code Hcode) in Hin.
  pose proof (run_try_footprint eng p id fnOrCode scope args st) as Htry.
  rewrite Forall_forall in Htry.
  destruct (run_try eng p id fnOrCode scope args st) as [[[v|err|] tr0] st0] eqn:E.
  - rewrite (tryCatch_Returned _ _ _ _ _ _ E) in Hin. by apply Htry in Hin.
  - rewrite (tryCatch_Thrown _ _ _ _ _ _ E) in Hin.
    unfold traceOf in Hin; simpl in Hin. apply elem_of_app in Hin as [Hin|Hin].
    + by apply Htry in Hin.
    + pose proof (run_catch_footprint eng fuel p id description code args err st0) as Hc.
      rewrite Forall_forall in Hc. apply Hc in Hin. by exists err, tr0, st0.
  - rewrite (tryCatch_Pending _ _ _ _ _ E) in Hin. by apply Htry in Hin.
Qed.

(** C1. The specification has the persisted text that ran as the
    original code of the repair context.  The code departs from it: when
    the store returns non-empty text [T] and the execution of [T] fails
    with [e], every prompt sent to the LLM is built from the text of the
    caller-supplied [fnOrCode], paired with the error [e] of the
    persisted text. *)
Theorem persisted_failure_repaired_from_default_text
    fuel (p : Pause W) id description fnOrCode scope args st T w1 code e trx st1 :
  getFunctionFromDb p id (world st) = (Returned (Some T), w1) ->
  T <> EmptyString ->
  originalCodeStringOf fnOrCode = Some code ->
  _executeFunctionString eng T id args (mkSt w1 (fresh st)) = (Thrown e, trx, st1) ->
  forall prompt r,
    In (EInvokeLLM prompt r)
       (traceOf (run eng fuel p id description fnOrCode scope args st)) ->
    prompt = _buildCorrectionPrompt eng id description code e args.
Proof.
  intros Hfetch HT Hcode Hexec prompt r Hin.
  destruct (prompts_are_built_from_fnOrCode fuel p id description fnOrCode scope
              args st code Hcode prompt r Hin) as (err & tr0 & st0 & Htry & ->).
  rewrite (run_try_persisted eng p id fnOrCode scope args st T w1 Hfetch HT) in Htry.
  rewrite Hexec in Htry. by inversion Htry.
Qed.

End RepairContext.

Lemma persisted_failure_repaired_from_default_text_witness :
  let id := "db-error-test" in
  let description :=
    "This code from DB has an error, please fix to return 'Fixed DB Code'" in
  let p := Demo.pauseWith (Finite 3) (Some (Demo.helpfulLLM id)) in
  let st := Demo.withBadDbCode id in
  let T := Demo.incorrectDbFunctionString in
  let code := fn_source Demo.localFn in
  let e := mkError (Foreign 0) "ReferenceError"
             "Error executing function string for ID db-error-test: nonExistentDbVar is not defined"
             "ReferenceError: nonExistentDbVar is not defined" in
  let x := _executeFunctionString Demo.engine T id [] st in
  let out := run Demo.engine 3 p id description (IsFunction Demo.localFn) [] [] st in
  let sent := _buildCorrectionPrompt Demo.engine id description code e [] in
  let r := Returned
             {| tool_calls :=
                  Some [mkToolCall "propose_corrected_block"
                          (Obj [("block_id", Str id);
                                ("corrected_code", Str "() => 'Fixed DB Code'")])
                          "call_mock"];
                content := EmptyString |} in
  getFunctionFromDb p id (world st) = (Returned (Some T), world st)
  /\ T <> EmptyString
  /\ x = (Thrown e, traceOf x, stateOf x)
  /\ In (EInvokeLLM sent r) (traceOf out)
  /\ prompts (traceOf out) = [sent]
  /\ sent = _buildCorrectionPrompt Demo.engine id description code e []
  /\ sent <> _buildCorrectionPrompt Demo.engine id description T e []
  /\ saves (traceOf out) = [(id, "() => 'Fixed DB Code'")]
  /\ resultOf out = Returned (Str "Fixed DB Code").
Proof.
  intros id description p st T code e x out sent r.
  assert (getFunctionFromDb p id (world st) = (Returned (Some T), world st))
    as Hfetch by reflexivity.
  assert (T <> EmptyString) as HT by discriminate.
  assert (x = (Thrown e, traceOf x, stateOf x)) as Hx by reflexivity.
  assert (In (EInvokeLLM sent r) (traceOf out)) as Hin.
  { replace (traceOf out)
      with (take 3 (traceOf out) ++ EInvokeLLM sent r :: drop 4 (traceOf out))
      by reflexivity.
    apply in_or_app. right. left. reflexivity. }
  split; [exact Hfetch|]. split; [exact HT|]. split; [exact Hx|].
  split; [exact Hin|]. split; [reflexivity|]. split.
  - exact (persisted_failure_repaired_from_default_text Demo.engine 3 p id description
             (IsFunction Demo.localFn) [] [] st T (world st) code e (traceOf x)
             (stateOf x) Hfetch HT eq_refl Hx sent r Hin).
  - split; [|split; reflexivity]. apply String.eqb_neq. reflexivity.
Defined.

(** ** Leaving the loop without an attempt *)

Section LoopSkipped.
Context {W : Type} (eng : Engine W).

Lemma repairLoop_not_entered fuel (p : Pause W) l id description code err args st :
  int_le_number 1 (maxAiRetries p) = false ->
  repairLoop eng (S fuel) p l id description code err args 1 st
  = (Returned Undefined, [], st).
Proof. intros H. simpl. by rewrite H. Qed.

(** C4. The specification has every failing execution end in the value
    of a corrected execution or in a raised failure, for every numeric
    bound.  The code departs from it: with an LLM configured and a bound
    that does not admit a first attempt (0, a negative number, NaN), a
    failing execution makes [run] resolve with [undefined]; the LLM is
    not invoked, no corrected code is executed, and no error is raised. *)
Theorem failure_swallowed_when_loop_is_skipped
    fuel (p : Pause W) l id description fnOrCode scope args st code err tr0 st0 :
  llm p = Some l ->
  int_le_number 1 (maxAiRetries p) = false ->
  originalCodeStringOf fnOrCode = Some code ->
  run_try eng p id fnOrCode scope args st = (Thrown err, tr0, st0) ->
  run eng (S fuel) p id description fnOrCode scope args st
  = (Returned Undefined, tr0, st0).
Proof.
  intros Hllm Hmax Hcode Htry.
  rewrite (run_unfold _ _ _ _ _ _ _ _ code Hcode).
  rewrite (tryCatch_Thrown _ _ _ _ _ _ Htry).
  unfold run_catch. rewrite Hllm, repairLoop_not_entered by done.
  unfold resultOf, traceOf, stateOf; simpl. by rewrite app_nil_r.
Qed.

End LoopSkipped.

Lemma failure_swallowed_when_loop_is_skipped_witness :
  let id := "retry-limit-test" in
  let description := "A function that always errors, to test retries." in
  let l := Demo.stubbornLLM id in
  let p := Demo.pauseWith (Finite 0) (Some l) in
  let err := mkError (Foreign 0) "Error" "Initial deliberate error for retry test"
               "Error: Initial deliberate error for retry test" in
  let tr0 := [EFetch id (Returned None); ECallDefault [] (Thrown err)] in
  let st1 := mkSt (Demo.mkWorld ∅ 1 0) 0 in
  llm p = Some l
  /\ int_le_number 1 (maxAiRetries p) = false
  /\ run_try Demo.engine p id (IsFunction Demo.incorrectFn) [] [] Demo.st0
     = (Thrown err, tr0, st1)
  /\ run Demo.engine 1 p id description (IsFunction Demo.incorrectFn) [] [] Demo.st0
     = (Returned Undefined, tr0, st1).
Proof.
  intros id description l p err tr0 st1.
  assert (run_try Demo.engine p id (IsFunction Demo.incorrectFn) [] [] Demo.st0
          = (Thrown err, tr0, st1)) as Htry by reflexivity.
  split; [reflexivity|]. split; [reflexivity|]. split; [exact Htry|].
  exact (failure_swallowed_when_loop_is_skipped Demo.engine 0 p l id description
           (IsFunction Demo.incorrectFn) [] [] Demo.st0 (fn_source Demo.incorrectFn)
           err tr0 st1 eq_refl eq_refl eq_refl Htry).
Defined.

(** The same on the concrete environment, for the bounds 0, NaN and 3/2;
    with 3/2 the loop is left after one rejected attempt, which is not
    the attempt with [attempt === maxAiRetries]. *)
Example failure_swallowed_examples :
  let id := "retry-limit-test" in
  let run_with maxRetries :=
    run Demo.engine 5 (Demo.pauseWith maxRetries (Some (Demo.stubbornLLM id)))
      id "A function that always errors, to test retries."
      (IsFunction Demo.incorrectFn) [] [] Demo.st0 in
  (resultOf (run_with (Finite 0)) = Returned Undefined
   /\ invocations (traceOf (run_with (Finite 0))) = 0%nat)
  /\ (resultOf (run_with NaN) = Returned Undefined
      /\ invocations (traceOf (run_with NaN)) = 0%nat)
  /\ (resultOf (run_with (Finite (3 # 2))) = Returned Undefined
      /\ invocations (traceOf (run_with (Finite (3 # 2)))) = 1%nat).
Proof. repeat split; reflexivity. Qed.

(** ** Failures of the store *)

Section StoreFailures.
Context {W : Type} (eng : Engine W).

(** C5, amended. When the fetch throws: without an LLM [run] rethrows
    that error unchanged and does nothing else; with an LLM the error is
    handled as an execution failure, the repair loop is entered at
    attempt 1 with the fetch error as original error and the text of
    [fnOrCode] as original code. *)
Theorem fetch_failure_handling
    fuel (p : Pause W) id description fnOrCode scope args st code e w1 :
  originalCodeStringOf fnOrCode = Some code ->
  getFunctionFromDb p id (world st) = (Thrown e, w1) ->
  run eng fuel p id description fnOrCode scope args st
  = match llm p with
    | None => (Thrown e, [EFetch id (Thrown e)], mkSt w1 (fresh st))
    | Some l =>
        let x := repairLoop eng fuel p l id description code e args 1
                   (mkSt w1 (fresh st)) in
        (resultOf x, EFetch id (Thrown e) :: traceOf x, stateOf x)
    end.
Proof.
  intros Hcode Hfetch.
  rewrite (run_unfold _ _ _ _ _ _ _ _ code Hcode).
  rewrite (tryCatch_Thrown _ _ _ _ _ _
             (run_try_fetch_Thrown eng p id fnOrCode scope args st e w1 Hfetch)).
  unfold run_catch. by destruct (llm p).
Qed.

(** A pass of the loop in which the correction is accepted and the save
    throws. *)
Lemma attempt_try_save_Thrown
    (p : Pause W) l id description code err args a st c tr1 st1 es w2 :
  _attemptAICorrection eng l id description code err args a st = (Returned c, tr1, st1) ->
  saveFunctionToDb p id c (world st1) = (Thrown es, w2) ->
  attempt_try eng p l id description code err args a st
  = (Thrown es, tr1 ++ [ESave id c (Thrown es)], mkSt w2 (fresh st1)).
Proof.
  intros Hc Hsave. unfold attempt_try, mbind, M_bind.
  rewrite (bind_Returned _ _ _ _ _ _ Hc).
  erewrite bind_Thrown; [done|]. unfold ext. by rewrite Hsave.
Qed.

(** C6, amended. When the save of an accepted correction throws, the
    loop catches the error like a failure of the LLM: the attempt is
    used up; on the last attempt the message of the save error is
    carried, as last AI error, by the error of exhausted retries;
    otherwise the loop goes on with the next attempt. *)
Theorem save_failure_consumes_attempt
    fuel (p : Pause W) l id description code err args a st c tr1 st1 es w2 :
  int_le_number a (maxAiRetries p) = true ->
  _attemptAICorrection eng l id description code err args a st = (Returned c, tr1, st1) ->
  saveFunctionToDb p id c (world st1) = (Thrown es, w2) ->
  repairLoop eng (S fuel) p l id description code err args a st
  = if int_eq_number a (maxAiRetries p) then
      (Thrown (mkError (Own (fresh st1)) "Error"
                 (maxRetriesMessage id (Some es) err)
                 ("Error: " ++ maxRetriesMessage id (Some es) err)%string),
       tr1 ++ [ESave id c (Thrown es)],
       mkSt w2 (S (fresh st1)))
    else
      let x := repairLoop eng fuel p l id description code err args (a + 1)
                 (mkSt w2 (fresh st1)) in
      (resultOf x, tr1 ++ ESave id c (Thrown es) :: traceOf x, stateOf x).
Proof.
  intros Hle Hc Hsave. simpl. rewrite Hle.
  rewrite (tryCatch_Thrown _ _ _ _ _ _
             (attempt_try_save_Thrown p l id description code err args a st
                c tr1 st1 es w2 Hc Hsave)).
  destruct (int_eq_number a (maxAiRetries p)).
  - unfold resultOf, traceOf, stateOf; simpl. by rewrite app_nil_r.
  - by rewrite <- app_assoc.
Qed.

End StoreFailures.

(** C5 as the specification states it fails here: the fetch throws, an
    LLM is configured; [run]
    does not rethrow the fetch error, the LLM is invoked, its correction
    is saved and executed, and [run] returns the value of the correction. *)
Lemma fetch_failure_enters_repair_loop :
  let id := "db-error-test" in
  let p := Demo.pauseOf Demo.brokenFetch Demo.saveFunctionToDb (Finite 3)
             (Some (Demo.helpfulLLM id)) in
  let e := mkError (Foreign 0) "Error" "store unavailable" "Error: store unavailable" in
  let out := run Demo.engine 3 p id "Return 'Fixed DB Code'"
               (IsFunction Demo.localFn) [] [] Demo.st0 in
  getFunctionFromDb p id (world Demo.st0) = (Thrown e, Demo.mkWorld ∅ 1 0)
  /\ ~ (resultOf out = Thrown e /\ invocations (traceOf out) = 0%nat)
  /\ resultOf out = Returned (Str "Fixed DB Code")
  /\ invocations (traceOf out) = 1%nat
  /\ saves (traceOf out) = [(id, "() => 'Fixed DB Code'")].
Proof.
  intros id p e out. split; [reflexivity|]. split; [|repeat split; reflexivity].
  intros [H _]. vm_compute in H. discriminate H.
Qed.

Lemma fetch_failure_handling_witness :
  let id := "db-error-test" in
  let l := Demo.helpfulLLM id in
  let p := Demo.pauseOf Demo.brokenFetch Demo.saveFunctionToDb (Finite 3) (Some l) in
  let e := mkError (Foreign 0) "Error" "store unavailable" "Error: store unavailable" in
  let w1 := Demo.mkWorld ∅ 1 0 in
  originalCodeStringOf (IsFunction Demo.localFn) = Some (fn_source Demo.localFn)
  /\ getFunctionFromDb p id (world Demo.st0) = (Thrown e, w1)
  /\ run Demo.engine 3 p id "Return 'Fixed DB Code'" (IsFunction Demo.localFn) [] [] Demo.st0
     = let x := repairLoop Demo.engine 3 p l id "Return 'Fixed DB Code'"
                  (fn_source Demo.localFn) e [] 1 (mkSt w1 0) in
       (resultOf x, EFetch id (Thrown e) :: traceOf x, stateOf x).
Proof.
  intros id l p e w1.
  split; [reflexivity|]. split; [reflexivity|].
  exact (fetch_failure_handling Demo.engine 3 p id "Return 'Fixed DB Code'"
           (IsFunction Demo.localFn) [] [] Demo.st0 (fn_source Demo.localFn) e w1
           eq_refl eq_refl).
Defined.

(** C6 as the specification states it fails here: the save throws each
    time; the loop retries
    (the LLM is invoked twice, the save is called twice), and the message
    of the save error ends up in the error of exhausted retries. *)
Lemma save_failure_is_retried_and_aggregated :
  let id := "runtime-error-test" in
  let c := "() => 'Fixed DB Code'" in
  let p := Demo.pauseOf Demo.getFunctionFromDb Demo.brokenSave (Finite 2)
             (Some (Demo.helpfulLLM id)) in
  let out := run Demo.engine 2 p id "Return 'Fixed DB Code'"
               (IsFunction Demo.incorrectFn) [] [] Demo.st0 in
  (forall w, exists es w',
      saveFunctionToDb p id c w = (Thrown es, w')
      /\ err_message es = "store is read-only")
  /\ ~ (exists es w w',
          saveFunctionToDb p id c w = (Thrown es, w') /\ resultOf out = Thrown es)
  /\ invocations (traceOf out) = 2%nat
  /\ saves (traceOf out) = [(id, c); (id, c)]
  /\ exists e,
       resultOf out = Thrown e
       /\ err_id e = Own 0
       /\ err_message e
          = "Max AI retries reached for block ID: runtime-error-test. Last AI error: store is read-only. Original error: Initial deliberate error for retry test".
Proof.
  intros id c p out. split; [|split; [|split; [reflexivity|split; [reflexivity|]]]].
  - intros w. eexists. eexists. split; reflexivity.
  - intros (es & w & w' & Hsave & Hout).
    inversion Hsave as [[Hes Hw]]. vm_compute in Hout. rewrite <- Hes in Hout.
    discriminate Hout.
  - eexists. split; [reflexivity|]. split; reflexivity.
Qed.

Lemma save_failure_consumes_attempt_witness :
  let id := "runtime-error-test" in
  let description := "Return 'Fixed DB Code'" in
  let l := Demo.helpfulLLM id in
  let p := Demo.pauseOf Demo.getFunctionFromDb Demo.brokenSave (Finite 2) (Some l) in
  let err := mkError (Foreign 0) "Error" "Initial deliberate error for retry test"
               "Error: Initial deliberate error for retry test" in
  let st := mkSt (Demo.mkWorld ∅ 1 0) 0 in
  let c := "() => 'Fixed DB Code'" in
  let es := mkError (Foreign 1) "Error" "store is read-only"
              "Error: store is read-only" in
  let w2 := Demo.mkWorld ∅ 2 1 in
  let code := fn_source Demo.incorrectFn in
  let x := _attemptAICorrection Demo.engine l id description code err [] 1 st in
  int_le_number 1 (maxAiRetries p) = true
  /\ x = (Returned c, traceOf x, stateOf x)
  /\ saveFunctionToDb p id c (world (stateOf x)) = (Thrown es, w2)
  /\ repairLoop Demo.engine 2 p l id description code err [] 1 st
     = let y := repairLoop Demo.engine 1 p l id description code err [] (1 + 1)
                  (mkSt w2 (fresh (stateOf x))) in
       (resultOf y, traceOf x ++ ESave id c (Thrown es) :: traceOf y, stateOf y).
Proof.
  intros id description l p err st c es w2 code x.
  assert (int_le_number 1 (maxAiRetries p) = true) as Hle by reflexivity.
  assert (x = (Returned c, traceOf x, stateOf x)) as Hx by reflexivity.
  assert (saveFunctionToDb p id c (world (stateOf x)) = (Thrown es, w2)) as Hsave
    by reflexivity.
  split; [exact Hle|]. split; [exact Hx|]. split; [exact Hsave|].
  exact (save_failure_consumes_attempt Demo.engine 1 p l id description code err []
           1 st c (traceOf x) (stateOf x) es w2 Hle Hx Hsave).
Defined.

(** ** Failures without an LLM *)

Section Passthrough.
Context {W : Type} (eng : Engine W).

Lemma string_app_assoc (s1 s2 s3 : string) :
  ((s1 ++ s2) ++ s3 = s1 ++ (s2 ++ s3))%string.
Proof.
  induction s1 as [|c s1 IH]; [reflexivity|].
  change (String c ((s1 ++ s2) ++ s3) = String c (s1 ++ (s2 ++ s3)))%string.
  by f_equal.
Qed.






(** Without an LLM, [run] on a function or a string is its [try] block. *)
Lemma run_without_llm fuel (p : Pause W) id description fnOrCode scope args st :
  llm p = None ->
  isFunctionOrString fnOrCode = true ->
  run eng fuel p id description fnOrCode scope args st
  = run_try eng p id fnOrCode scope args st.
Proof.
  intros Hllm Hvalid.
  destruct (originalCodeStringOf fnOrCode) as [code|] eqn:Hcode;
    [|by destruct fnOrCode].
  rewrite (run_unfold _ _ _ _ _ _ _ _ code Hcode).
  unfold tryCatch, run_catch. rewrite Hllm.
  destruct (run_try eng p id fnOrCode scope args st) as [[[v|e|] tr] st']; try done.
  unfold throw. by rewrite app_nil_r.
Qed.


End Passthrough.



(** ** Textual evaluation *)

Section ScopeBinding.
Context {W : Type} (eng : Engine W).

(** The execution scope built from an empty scope and two parameters. *)
Lemma bindParams_two (p q : string) (a b : value) :
  p <> q ->
  bindParams [p; q] 0 [a; b] [] = [(p, a); (q, b)].
Proof.
  intros Hpq. simpl. apply String.eqb_neq in Hpq.
  rewrite String.eqb_sym in Hpq. by rewrite Hpq.
Qed.

(** C8. For a code string whose inferred parameters are (p, q), the
    scope {} and the arguments (5, 10), the textual evaluation binds
    p = 5 and q = 10: the function is synthesized with the parameters
    p, q and the inferred body, and is called with 5, 10.  When that
    function returns the sum of its parameters p and q, the result is 15. *)
Theorem scope_binding_of_textual_code (codeString id : string) (st : St W) :
  inferParams codeString = ["p"; "q"] ->
  let evalFn := mkSynth true ["p"; "q"] (" " ++ inferBody codeString ++ " ")%string in
  let five := Num (Finite 5) in
  let ten := Num (Finite 10) in
  syntax_ok eng evalFn = true ->
  (forall a b w,
      call_await eng evalFn [Num (Finite a); Num (Finite b)] w
      = (Returned (Num (Finite (a + b))), w)) ->
  bindParams (inferParams codeString) 0 [five; ten] [] = [("p", five); ("q", ten)]
  /\ _executeCodeStringViaEval eng codeString id [] [five; ten] st
     = (Returned (Num (Finite 15)),
        [EConstruct AtEval evalFn None;
         ECall AtEval evalFn [five; ten] (Returned (Num (Finite 15)))],
        st).
Proof.
  intros Hparams evalFn five ten Hok Hsum.
  split; [by rewrite Hparams|].
  unfold _executeCodeStringViaEval, evalWrapper, tryCatch, mbind, M_bind, bind.
  rewrite Hparams. cbn [bindParams assoc_set nth map fst snd String.eqb Ascii.eqb
                         Bool.eqb].
  fold evalFn. unfold new_Function. rewrite Hok.
  unfold ext. cbn [world fresh]. unfold five, ten. rewrite Hsum.
  by destruct st.
Qed.

End ScopeBinding.

Lemma scope_binding_of_textual_code_witness :
  let codeString := "(p, q) => p + q" in
  let evalFn := mkSynth true ["p"; "q"] " return p + q " in
  let five := Num (Finite 5) in
  let ten := Num (Finite 10) in
  inferParams codeString = ["p"; "q"]
  /\ syntax_ok Demo.engine evalFn = true
  /\ (forall a b w,
        call_await Demo.engine evalFn [Num (Finite a); Num (Finite b)] w
        = (Returned (Num (Finite (a + b))), w))
  /\ _executeCodeStringViaEval Demo.engine codeString "scope-binding" [] [five; ten]
       Demo.st0
     = (Returned (Num (Finite 15)),
        [EConstruct AtEval evalFn None;
         ECall AtEval evalFn [five; ten] (Returned (Num (Finite 15)))],
        Demo.st0).
Proof.
  intros codeString evalFn five ten.
  assert (forall a b w,
             call_await Demo.engine evalFn [Num (Finite a); Num (Finite b)] w
             = (Returned (Num (Finite (a + b))), w)) as Hsum by reflexivity.
  split; [reflexivity|]. split; [reflexivity|]. split; [exact Hsum|].
  exact (proj2 (scope_binding_of_textual_code Demo.engine codeString "scope-binding"
                  Demo.st0 eq_refl eq_refl Hsum)).
Defined.

(** ** Validation of a proposed correction *)

Section Validation.
Context {W : Type} (eng : Engine W).

(** The syntax check compiles [return <code>] and, when the text
    compiles, calls the compiled function: the candidate expression is
    evaluated, and the check settles as that call does. *)
Lemma checkSyntax_calls_the_candidate (correctedCode : string) (st : St W) :
  let f := mkSynth false [] ("return " ++ correctedCode)%string in
  syntax_ok eng f = true ->
  checkSyntax eng correctedCode st
  = (resultOf (ext (ECall AtValidation f []) (call_fn eng f []) st),
     [EConstruct AtValidation f None;
      ECall AtValidation f [] (call_fn eng f [] (world st)).1],
     mkSt (call_fn eng f [] (world st)).2 (fresh st)).
Proof.
  intros f Hok. unfold checkSyntax, mbind, M_bind, bind, new_Function.
  fold f. rewrite Hok. unfold ext, resultOf.
  by destruct (call_fn eng f [] (world st)).
Qed.

(** C9. The specification has a check that only parses and rejects
    exactly the texts that are not valid syntax.  The code departs from
    it: for a response that proposes, for the right block, a non-empty
    text [c] such that [return c] compiles, the check calls the compiled
    function; when that call throws [e], the response is rejected as
    invalid syntax with the message of [e].  A text that is valid syntax
    is rejected, and it has run during validation. *)
Theorem validation_evaluates_the_candidate
    (id c callId text : string) (rest : list toolCall) (st : St W) (e : error) (w' : W) :
  let f := mkSynth false [] ("return " ++ c)%string in
  let resp :=
    {| tool_calls :=
         Some (mkToolCall "propose_corrected_block"
                 (Obj [("block_id", Str id); ("corrected_code", Str c)]) callId
               :: rest);
       content := text |} in
  let message :=
    ("AI proposed invalid JavaScript syntax: " ++ err_message e ++ nl
       ++ "Code: " ++ c)%string in
  c <> EmptyString ->
  syntax_ok eng f = true ->
  call_fn eng f [] (world st) = (Thrown e, w') ->
  validateResponse eng id resp st
  = (Thrown (mkError (Own (fresh st)) "Error" message ("Error: " ++ message)%string),
     [EConstruct AtValidation f None; ECall AtValidation f [] (Thrown e)],
     mkSt w' (S (fresh st))).
Proof.
  intros f resp message Hc Hok Hcall.
  unfold validateResponse, resp, mbind, M_bind.
  cbn [tool_calls tc_args tc_name].
  unfold bind at 1, ret at 1.
  cbn [String.eqb Ascii.eqb Bool.eqb negb typeOf orb getProp assoc_get default
         from_option Datatypes.id].
  unfold strictEqStr. rewrite String.eqb_refl. cbn [negb].
  rewrite (truthy_Str_nonempty c Hc). cbn [negb orb].
  unfold bind, tryCatch.
  rewrite (checkSyntax_calls_the_candidate c st Hok).
  unfold resultOf, ext. fold f. rewrite Hcall. reflexivity.
Qed.

End Validation.

Lemma validation_evaluates_the_candidate_witness :
  let id := "runtime-error-test" in
  let c := "(() => { throw new Error('boom') })()" in
  let f := mkSynth false [] ("return " ++ c)%string in
  let boom := mkError (Foreign 0) "Error" "boom" "Error: boom" in
  let resp :=
    {| tool_calls :=
         Some [mkToolCall "propose_corrected_block"
                 (Obj [("block_id", Str id); ("corrected_code", Str c)]) "call_mock"];
       content := EmptyString |} in
  let message :=
    ("AI proposed invalid JavaScript syntax: boom" ++ nl
       ++ "Code: (() => { throw new Error('boom') })()")%string in
  c <> EmptyString
  /\ syntax_ok Demo.engine f = true
  /\ call_fn Demo.engine f [] (world Demo.st0) = (Thrown boom, Demo.mkWorld ∅ 1 0)
  /\ validateResponse Demo.engine id resp Demo.st0
     = (Thrown (mkError (Own 0) "Error" message ("Error: " ++ message)%string),
        [EConstruct AtValidation f None; ECall AtValidation f [] (Thrown boom)],
        mkSt (Demo.mkWorld ∅ 1 0) 1).
Proof.
  intros id c f boom resp message.
  assert (c <> EmptyString) as Hc by discriminate.
  split; [exact Hc|]. split; [reflexivity|]. split; [reflexivity|].
  exact (validation_evaluates_the_candidate Demo.engine id c "call_mock" EmptyString []
           Demo.st0 boom (Demo.mkWorld ∅ 1 0) Hc eq_refl eq_refl).
Defined.

(** The function of the correction tool makes the same check. *)
Example correction_tool_evaluates_the_candidate :
  let id := "runtime-error-test" in
  let c := "(() => { throw new Error('boom') })()" in
  let f := mkSynth false [] ("return " ++ c)%string in
  let boom := mkError (Foreign 0) "Error" "boom" "Error: boom" in
  let tool := tool_func (_createCorrectionTool Demo.engine id) (Str id) (Str c)
                Demo.st0 in
  traceOf tool = [EConstruct AtValidation f None; ECall AtValidation f [] (Thrown boom)]
  /\ resultOf tool
     = Returned "Tool Error: Proposed code is not valid JavaScript syntax: boom".
Proof. split; reflexivity. Qed.

(** ** The persistence sink *)

Section Persistence.
Context {W : Type} (eng : Engine W).

Lemma accepted_after id c pre before :
  accepted eng id c before -> accepted eng id c (pre ++ before).
Proof.
  intros (tr0 & prompt & resp & trv & sa & sb & -> & Hv).
  exists (pre ++ tr0), prompt, resp, trv, sa, sb. by rewrite <- app_assoc.
Qed.

Lemma savesAreAccepted_weaken id pre tr :
  savesAreAccepted eng id [] tr -> savesAreAccepted eng id pre tr.
Proof.
  intros H tr1 id' c res tr2 Htr. destruct (H tr1 id' c res tr2 Htr) as [-> Hacc].
  split; [done|]. by apply accepted_after.
Qed.

Lemma savesAreAccepted_nosave id pre tr :
  Forall (fun ev => isSave ev = false) tr -> savesAreAccepted eng id pre tr.
Proof.
  intros Hall tr1 id' c res tr2 ->.
  apply Forall_app in Hall as [_ Hall]. by inversion Hall.
Qed.

Lemma savesAreAccepted_app id pre tra trb :
  savesAreAccepted eng id pre tra ->
  savesAreAccepted eng id (pre ++ tra) trb ->
  savesAreAccepted eng id pre (tra ++ trb).
Proof.
  intros Ha Hb tr1 id' c res tr2 Htr.
  apply List.app_eq_app in Htr as [l [[-> Hl] | [-> Hl]]].
  - destruct l as [|ev l]; simpl in Hl.
    + subst trb. rewrite app_nil_r in Hb.
      destruct (Hb [] id' c res tr2 eq_refl) as [-> Hacc].
      by rewrite app_nil_r in Hacc.
    + inversion Hl; subst. by eapply Ha.
  - destruct (Hb l id' c res tr2 Hl) as [-> Hacc].
    by rewrite <- app_assoc in Hacc.
Qed.

Lemma savesAreAccepted_one id pre c res :
  accepted eng id c pre -> savesAreAccepted eng id pre [ESave id c res].
Proof.
  intros Hacc tr1 id' c' res' tr2 Htr.
  destruct tr1 as [|ev tr1]; simpl in Htr.
  - inversion Htr; subst. by rewrite app_nil_r.
  - inversion Htr as [[Hev Hnil]]. by destruct tr1.
Qed.

(** A correction returned by [_attemptAICorrection] comes from a response
    of the LLM that passed the checks. *)
Lemma attemptAICorrection_Returned_inv l id description code err args a st c tr st1 :
  _attemptAICorrection eng l id description code err args a st = (Returned c, tr, st1) ->
  accepted eng id c tr.
Proof.
  unfold _attemptAICorrection, mbind, M_bind, bind, ext.
  destruct (llm_invoke l _ _ _) as [[resp|e|] w']; try discriminate.
  destruct (validateResponse eng id resp (mkSt w' (fresh st)))
    as [[r trv] sb] eqn:Hv.
  intros H; inversion H; subst.
  by exists [], (_buildCorrectionPrompt eng id description code err args),
            resp, trv, (mkSt w' (fresh st)), st1.
Qed.

Lemma nosave_attemptAICorrection l id description code err args a st :
  Forall (fun ev => isSave ev = false)
         (traceOf (_attemptAICorrection eng l id description code err args a st)).
Proof.
  unfold _attemptAICorrection, mbind, M_bind.
  apply emits_bind; [by apply emits_ext|].
  intros resp. by apply validateResponse_footprint.
Qed.

Lemma nosave_executeFunctionString codeString id args st :
  Forall (fun ev => isSave ev = false)
         (traceOf (_executeFunctionString eng codeString id args st)).
Proof. by apply executeFunctionString_footprint. Qed.

Lemma nosave_run_try (p : Pause W) id fnOrCode scope args st :
  Forall (fun ev => isSave ev = false)
         (traceOf (run_try eng p id fnOrCode scope args st)).
Proof.
  eapply Forall_impl; [apply run_try_footprint|].
  intros ev. by destruct ev as [| | | |[]|[]].
Qed.

(** In one pass of the loop, the only save follows the accepted
    correction and is made under the id of the run. *)
Lemma attempt_try_saves (p : Pause W) l id description code err args a st :
  savesAreAccepted eng id []
    (traceOf (attempt_try eng p l id description code err args a st)).
Proof.
  unfold attempt_try, mbind, M_bind.
  pose proof (nosave_attemptAICorrection l id description code err args a st) as Hno.
  destruct (_attemptAICorrection eng l id description code err args a st)
    as [[[c|e|] tra] st1] eqn:Hc.
  - rewrite (bind_Returned _ _ _ _ _ _ Hc). unfold traceOf at 1; simpl.
    apply savesAreAccepted_app; [by apply savesAreAccepted_nosave|].
    apply attemptAICorrection_Returned_inv in Hc. simpl.
    unfold bind, ext. destruct (saveFunctionToDb p id c (world st1)) as [[[]|es|] w2].
    + pose proof (nosave_executeFunctionString c id args (mkSt w2 (fresh st1))) as Hx.
      destruct (_executeFunctionString eng c id args (mkSt w2 (fresh st1)))
        as [[r trx] st2].
      unfold traceOf; simpl.
      apply (savesAreAccepted_app id tra [ESave id c (Returned ())] trx).
      * by apply savesAreAccepted_one.
      * by apply savesAreAccepted_nosave.
    + by apply savesAreAccepted_one.
    + by apply savesAreAccepted_one.
  - rewrite (bind_Thrown _ _ _ _ _ _ Hc). by apply savesAreAccepted_nosave.
  - unfold bind. rewrite Hc. by apply savesAreAccepted_nosave.
Qed.

Lemma repairLoop_saves fuel (p : Pause W) l id description code err args a st :
  savesAreAccepted eng id []
    (traceOf (repairLoop eng fuel p l id description code err args a st)).
Proof.
  revert a st. induction fuel as [|fuel IH]; intros a st; simpl.
  { by apply savesAreAccepted_nosave. }
  destruct (int_le_number a (maxAiRetries p)); [|by apply savesAreAccepted_nosave].
  pose proof (attempt_try_saves p l id description code err args a st) as Htry.
  unfold tryCatch.
  destruct (attempt_try eng p l id description code err args a st)
    as [[[v|e|] tra] st1]; try done.
  destruct (int_eq_number a (maxAiRetries p)).
  - unfold traceOf in *; simpl in *. by rewrite app_nil_r.
  - specialize (IH (a + 1)%Z st1).
    destruct (repairLoop eng fuel p l id description code err args (a + 1) st1)
      as [[r trl] st2].
    unfold traceOf in *; simpl in *.
    apply savesAreAccepted_app; [done|]. by apply savesAreAccepted_weaken.
Qed.

(** C10. The save function is called only with a correction of the LLM
    that passed validation, and under the id of the run: every save of the
    trace of [run] is made under [id], and the events before it end with
    an LLM invocation whose response passed the checks and yielded the
    saved text.  When the selected variant executes successfully, [run]
    returns its value and makes no save. *)
Theorem saves_only_accepted_corrections
    fuel (p : Pause W) id description fnOrCode scope args st :
  (forall tr1 id' c res tr2,
      traceOf (run eng fuel p id description fnOrCode scope args st)
      = tr1 ++ ESave id' c res :: tr2 ->
      id' = id /\ accepted eng id c tr1)
  /\ (forall v tr0 st0,
        isFunctionOrString fnOrCode = true ->
        run_try eng p id fnOrCode scope args st = (Returned v, tr0, st0) ->
        run eng fuel p id description fnOrCode scope args st = (Returned v, tr0, st0)
        /\ saves tr0 = []).
Proof.
  destruct (originalCodeStringOf fnOrCode) as [code|] eqn:Hcode; cycle 1.
  { destruct fnOrCode as [| |v0]; try discriminate. split.
    - intros tr1 id' c res tr2 H. by destruct tr1.
    - intros v tr0 st0 Hvalid. discriminate Hvalid. }
  rewrite (run_unfold _ _ _ _ _ _ _ _ code Hcode).
  pose proof (nosave_run_try p id fnOrCode scope args st) as Hno.
  split.
  - change (savesAreAccepted eng id []
              (traceOf (tryCatch (run_try eng p id fnOrCode scope args)
                          (run_catch eng fuel p id description code args) st))).
    unfold tryCatch.
    destruct (run_try eng p id fnOrCode scope args st) as [[[v|e|] tr0] st0];
      try by apply savesAreAccepted_nosave.
    unfold run_catch. destruct (llm p) as [l|].
    + pose proof (repairLoop_saves fuel p l id description code e args 1%Z st0) as Hl.
      destruct (repairLoop eng fuel p l id description code e args 1 st0)
        as [[r trl] st1].
      unfold traceOf in *; simpl in *.
      apply savesAreAccepted_app; [by apply savesAreAccepted_nosave|].
      by apply savesAreAccepted_weaken.
    + unfold throw, traceOf in *; simpl in *. rewrite app_nil_r.
      by apply savesAreAccepted_nosave.
  - intros v tr0 st0 _ Htry. rewrite Htry in Hno. unfold traceOf in Hno; simpl in Hno.
    split; [by apply tryCatch_Returned|].
    clear Htry. induction Hno as [|ev tr Hev _ IH]; [done|].
    destruct ev; try done.
Qed.

End Persistence.

(** ** What passing the checks means *)

Section Accepted.
Context {W : Type} (eng : Engine W).

Lemma silent_trace {A} (m : M W A) st :
  emits (fun _ => False) m -> traceOf (m st) = [].
Proof.
  intros H. specialize (H st). destruct (traceOf (m st)); [done|by inversion H].
Qed.

(** A response passes the checks only if its first tool call is named
    [propose_corrected_block], and then the returned text is not empty,
    [return <text>] compiled, and the call of the compiled function
    returned. *)
Lemma validateResponse_Returned_inv id resp sa c trv sb :
  validateResponse eng id resp sa = (Returned c, trv, sb) ->
  let f := mkSynth false [] ("return " ++ c)%string in
  c <> EmptyString
  /\ syntax_ok eng f = true
  /\ (exists v,
         trv = [EConstruct AtValidation f None; ECall AtValidation f [] (Returned v)])
  /\ exists toolCall rest,
       tool_calls resp = Some (toolCall :: rest)
       /\ tc_name toolCall = "propose_corrected_block".
Proof.
  unfold validateResponse, mbind, M_bind.
  destruct (tool_calls resp) as [[|tc rest]|]; try discriminate.
  set (parse := match tc_args tc with Str s => _ | _ => _ end).
  assert (traceOf (parse sa) = []) as Hsilent.
  { apply silent_trace. subst parse.
    destruct (tc_args tc); try apply emits_ret.
    apply emits_tryCatch; [apply emits_builtin|].
    intros e. apply emits_bind; [apply emits_new_Error|intros; apply emits_throw]. }
  unfold bind at 1.
  destruct (parse sa) as [[[parsedArgs|e|] trp] stp]; try discriminate.
  unfold traceOf in Hsilent; simpl in Hsilent; subst trp.
  destruct (negb (tc_name tc =? "propose_corrected_block")%string) eqn:Hname;
    [simpl; discriminate|].
  destruct (_ || _); [discriminate|].
  destruct (negb (strictEqStr _ _)); [discriminate|].
  destruct (getProp parsedArgs "corrected_code") as [| | |n|c0|items|fields|src];
    try (destruct (negb (truthy _)); simpl; discriminate).
  destruct (negb (truthy (Str c0))) eqn:Hc0; [discriminate|].
  replace (typeOf (Str c0) =? "string")%string with true by reflexivity.
  cbn [orb negb].
  unfold bind, tryCatch, checkSyntax, mbind, M_bind, bind, new_Function, ext.
  destruct (syntax_ok eng _) eqn:Hok.
  - destruct (call_fn eng _ _ _) as [[v|e|] w']; simpl; intros H;
      inversion H; subst.
    split; [|split; [done|split; [by exists v|]]].
    + intros ->. discriminate Hc0.
    + exists tc, rest. split; [done|].
      apply negb_false_iff in Hname. by apply String.eqb_eq in Hname.
  - destruct (syntax_error eng _ _); simpl; discriminate.
Qed.

End Accepted.

Lemma saves_only_accepted_corrections_witness :
  let id := "db-error-test" in
  let c := "() => 'Fixed DB Code'" in
  let p := Demo.pauseWith (Finite 3) (Some (Demo.helpfulLLM id)) in
  let out := run Demo.engine 3 p id "Return 'Fixed DB Code'" (IsFunction Demo.localFn)
               [] [] (Demo.withBadDbCode id) in
  traceOf out = take 6 (traceOf out) ++ ESave id c (Returned tt) :: drop 7 (traceOf out)
  /\ accepted Demo.engine id c (take 6 (traceOf out)).
Proof.
  intros id c p out.
  assert (traceOf out
          = take 6 (traceOf out) ++ ESave id c (Returned tt) :: drop 7 (traceOf out))
    as Hsplit by reflexivity.
  split; [exact Hsplit|].
  exact (proj2 (proj1 (saves_only_accepted_corrections Demo.engine 3 p id
                         "Return 'Fixed DB Code'" (IsFunction Demo.localFn) [] []
                         (Demo.withBadDbCode id))
                  (take 6 (traceOf out)) id c (Returned tt) (drop 7 (traceOf out))
                  Hsplit)).
Defined.

(** ** The scenarios of [tests/pause.test.js] on the concrete environment *)

(** 'should stop retrying AI correction after maxAiRetries' *)
Example retry_limit_test :
  let id := "retry-limit-test" in
  let out := run Demo.engine 2 (Demo.pauseWith (Finite 2) (Some (Demo.stubbornLLM id)))
               id "A function that always errors, to test retries."
               (IsFunction Demo.incorrectFn) [] [] Demo.st0 in
  (exists e,
      resultOf out = Thrown e
      /\ err_message e
         = ("Max AI retries reached for block ID: retry-limit-test. Last AI error: AI proposed invalid JavaScript syntax: Unexpected identifier 'error'"
              ++ nl ++ "Code: () => { syntax error here; }. Original error: Initial deliberate error for retry test")%string)
  /\ invocations (traceOf out) = 2%nat
  /\ Demo.db (world (stateOf out)) = ∅.
Proof.
  intros id out. split; [eexists; split; reflexivity|]. split; reflexivity.
Qed.

(** 'should use DB function string, overriding local function' *)
Example db_override_test :
  let id := "db-override-fn-test" in
  let st := mkSt (Demo.mkWorld {[ id := Demo.dbCodeString ]} 0 0) 0 in
  let out := run Demo.engine 3 (Demo.pauseWith (Finite 3) None) id "DB override"
               (IsFunction Demo.incorrectFn) [] [] st in
  resultOf out = Returned (Str "Correct from DB")
  /\ Forall (fun ev => isLocalExecution ev = false) (traceOf out).
Proof. split; [reflexivity|]. repeat constructor. Qed.

(** 'should execute a correct function successfully' *)
Example correct_function_test :
  let id := "correct-fn-test" in
  let out := run Demo.engine 3 (Demo.pauseWith (Finite 3) (Some (Demo.helpfulLLM id)))
               id "Correct fn" (IsFunction Demo.localFn) [] [] Demo.st0 in
  resultOf out = Returned (Str "This local function is fine and should not run.")
  /\ traceOf out
     = [EFetch id (Returned None);
        ECallDefault []
          (Returned (Str "This local function is fine and should not run."))]
  /\ Demo.getFunctionFromDb id (world (stateOf out)) = (Returned None, world (stateOf out)).
Proof. repeat split; reflexivity. Qed.

(** The round trip of a correction: a failing default is corrected, the
    correction is saved under the id and executed; the next run for the
    same id executes the saved text and does not invoke the LLM. *)
Example round_trip :
  let id := "runtime-error-test" in
  let p := Demo.pauseWith (Finite 3) (Some (Demo.helpfulLLM id)) in
  let first := run Demo.engine 3 p id "Return 'Fixed DB Code'"
                 (IsFunction Demo.incorrectFn) [] [] Demo.st0 in
  let second := run Demo.engine 3 p id "Return 'Fixed DB Code'"
                  (IsFunction Demo.incorrectFn) [] [] (stateOf first) in
  resultOf first = Returned (Str "Fixed DB Code")
  /\ invocations (traceOf first) = 1%nat
  /\ saves (traceOf first) = [(id, "() => 'Fixed DB Code'")]
  /\ Demo.db (world (stateOf first)) !! id = Some "() => 'Fixed DB Code'"
  /\ resultOf second = Returned (Str "Fixed DB Code")
  /\ invocations (traceOf second) = 0%nat
  /\ Forall (fun ev => isLocalExecution ev = false) (traceOf second).
Proof.
  repeat split; try reflexivity. repeat constructor.
Qed.

(** * Further properties of the code *)

(** ** Traces of sequenced computations *)

Section TraceFacts.
Context {W : Type}.

Lemma traceOf_bind {A B} (m : M W A) (k : A -> M W B) st :
  traceOf (bind m k st)
  = traceOf (m st)
      ++ match resultOf (m st) with
         | Returned a => traceOf (k a (stateOf (m st)))
         | _ => []
         end.
Proof.
  unfold bind. destruct (m st) as [[[a|e|] tr] st']; simpl;
    try by rewrite app_nil_r.
  by destruct (k a st') as [[r tr'] st''].
Qed.

Lemma traceOf_tryCatch {A} (m : M W A) h st :
  traceOf (tryCatch m h st)
  = traceOf (m st)
      ++ match resultOf (m st) with
         | Thrown e => traceOf (h e (stateOf (m st)))
         | _ => []
         end.
Proof.
  unfold tryCatch. destruct (m st) as [[[a|e|] tr] st']; simpl;
    try by rewrite app_nil_r.
  by destruct (h e st') as [[r tr'] st''].
Qed.



End TraceFacts.

(** ** The budget of LLM invocations *)

Section Budget.
Context {W : Type} (eng : Engine W).


Lemma invocations_cons ev tr :
  invocations (ev :: tr) = ((if isInvoke ev then 1 else 0) + invocations tr)%nat.
Proof. unfold invocations. rewrite filter_cons. by destruct (isInvoke ev). Qed.








End Budget.

(** ** How a repair ends *)

Section RepairOutcomes.
Context {W : Type} (eng : Engine W).









End RepairOutcomes.

(** ** When the loop stops *)

Section Termination.
Context {W : Type} (eng : Engine W).





Lemma settled_raise m st :
  settled (resultOf (bind (new_Error (W := W) m) (fun e => throw (A := value) e) st)).
Proof. done. Qed.














End Termination.

(** ** The further properties on the concrete environment *)












(** ** One read of the store, one call of the default *)

Section SingleRead.
Context {W : Type} (eng : Engine W).

Lemma count_app P tr1 tr2 : count P (tr1 ++ tr2) = (count P tr1 + count P tr2)%nat.
Proof. unfold count. by rewrite filter_app, length_app. Qed.

Lemma count_none P tr : Forall (fun ev => P ev = false) tr -> count P tr = 0%nat.
Proof.
  unfold count. induction 1 as [|ev tr Hev _ IH]; [done|].
  rewrite filter_cons, Hev. exact IH.
Qed.

Lemma catch_block_counts fuel (p : Pause W) id description code args err st :
  count isFetch (traceOf (run_catch eng fuel p id description code args err st)) = 0%nat
  /\ count isDefaultCall
       (traceOf (run_catch eng fuel p id description code args err st)) = 0%nat.
Proof.
  split; apply count_none;
    (eapply Forall_impl; [apply run_catch_footprint|]);
    intros ev; by destruct ev as [| | | |[]|[]].
Qed.

Lemma executeFunctionString_quiet codeString id args st :
  count isFetch (traceOf (_executeFunctionString eng codeString id args st)) = 0%nat
  /\ count isDefaultCall
       (traceOf (_executeFunctionString eng codeString id args st)) = 0%nat.
Proof.
  split; apply count_none;
    apply (executeFunctionString_footprint eng (fun ev => _ ev = false)); done.
Qed.

Lemma run_local_counts id fnOrCode scope args st :
  count isFetch (traceOf (run_local eng id fnOrCode scope args st)) = 0%nat
  /\ (count isDefaultCall (traceOf (run_local eng id fnOrCode scope args st)) <= 1)%nat.
Proof.
  destruct fnOrCode as [f|s|v]; simpl.
  - unfold ext. destruct (fn_call f args (world st)). split; [done|]. unfold count; simpl; lia.
  - unfold _executeCodeStringViaEval, evalWrapper, mbind, M_bind, tryCatch, bind,
      new_Function, ext.
    destruct (syntax_ok eng _).
    + destruct (call_await eng _ _ _) as [[v|e|] w']; split; try done;
        unfold count; simpl; lia.
    + destruct (syntax_error eng _ _). split; [done|]. unfold count; simpl; lia.
  - split; [done|]. unfold count; simpl; lia.
Qed.

Lemma run_try_counts (p : Pause W) id fnOrCode scope args st :
  exists r tr,
    traceOf (run_try eng p id fnOrCode scope args st) = EFetch id r :: tr
    /\ count isFetch tr = 0%nat
    /\ (count isDefaultCall tr <= 1)%nat.
Proof.
  unfold run_try, mbind, M_bind. rewrite traceOf_bind.
  unfold ext at 1 2 3. destruct (getFunctionFromDb p id (world st)) as [r w1].
  exists r. eexists. split; [reflexivity|].
  unfold resultOf, stateOf; cbn [fst snd].
  destruct r as [[saved|]|e|]; try (split; [done|unfold count; simpl; lia]).
  - destruct (truthy (Str saved)); [|apply run_local_counts].
    destruct (executeFunctionString_quiet saved id args (mkSt w1 (fresh st)))
      as [-> ->]. split; [done|lia].
  - apply run_local_counts.
Qed.

(** X8. A run reads the store once, as its first step, and calls the
    caller-supplied default at most once: the corrections are executed
    from the text the LLM returned, the store is not read back, and the
    default is not tried again after a correction. *)
Theorem store_is_read_once
    fuel (p : Pause W) id description fnOrCode scope args st :
  isFunctionOrString fnOrCode = true ->
  exists r tr,
    traceOf (run eng fuel p id description fnOrCode scope args st) = EFetch id r :: tr
    /\ count isFetch tr = 0%nat
    /\ (count isDefaultCall tr <= 1)%nat.
Proof.
  intros Hvalid.
  destruct (originalCodeStringOf fnOrCode) as [code|] eqn:Hcode;
    [|by destruct fnOrCode].
  rewrite (run_unfold _ _ _ _ _ _ _ _ code Hcode), traceOf_tryCatch.
  destruct (run_try_counts p id fnOrCode scope args st) as (r & tr & -> & Hf & Hd).
  exists r.
  exists (tr ++ match resultOf (run_try eng p id fnOrCode scope args st) with
                | Thrown e =>
                    traceOf (run_catch eng fuel p id description code args e
                               (stateOf (run_try eng p id fnOrCode scope args st)))
                | _ => []
                end).
  split; [reflexivity|].
  rewrite !count_app.
  destruct (resultOf _) as [v|e|];
    try (change (count isFetch []) with 0%nat;
         change (count isDefaultCall []) with 0%nat; split; lia).
  destruct (catch_block_counts fuel p id description code args e
              (stateOf (run_try eng p id fnOrCode scope args st))) as [-> ->].
  split; lia.
Qed.

End SingleRead.

Lemma store_is_read_once_witness :
  let id := "runtime-error-test" in
  let p := Demo.pauseWith (Finite 3) (Some (Demo.helpfulLLM id)) in
  let out := run Demo.engine 3 p id "Return 'Fixed DB Code'"
               (IsFunction Demo.incorrectFn) [] [] Demo.st0 in
  isFunctionOrString (IsFunction Demo.incorrectFn) = true
  /\ (exists r tr,
         traceOf out = EFetch id r :: tr
         /\ count isFetch tr = 0%nat
         /\ (count isDefaultCall tr <= 1)%nat)
  /\ count isDefaultCall (traceOf out) = 1%nat
  /\ saves (traceOf out) = [(id, "() => 'Fixed DB Code'")].
Proof.
  intros id p out. split; [reflexivity|]. split; [|split; reflexivity].
  exact (store_is_read_once Demo.engine 3 p id "Return 'Fixed DB Code'"
           (IsFunction Demo.incorrectFn) [] [] Demo.st0 eq_refl).
Defined.

(** ** The text helpers *)

Section TextFacts.

Lemma app_String c s t : (String c s ++ t)%string = String c (s ++ t)%string.
Proof. reflexivity. Qed.

Lemma app_empty_r s : (s ++ EmptyString)%string = s.
Proof. induction s as [|c s IH]; [reflexivity|]. rewrite app_String. by f_equal. Qed.

Lemma list_ascii_app a b :
  list_ascii_of_string (a ++ b) = list_ascii_of_string a ++ list_ascii_of_string b.
Proof. induction a as [|c a IH]; [reflexivity|]. rewrite app_String. simpl. by f_equal. Qed.

Lemma string_of_list_app l1 l2 :
  string_of_list_ascii (l1 ++ l2)
  = (string_of_list_ascii l1 ++ string_of_list_ascii l2)%string.
Proof. induction l1 as [|c l1 IH]; [reflexivity|]. simpl. rewrite app_String. by f_equal. Qed.

Lemma rev_string_app a b : rev_string (a ++ b) = (rev_string b ++ rev_string a)%string.
Proof.
  unfold rev_string. by rewrite list_ascii_app, rev_app_distr, string_of_list_app.
Qed.

Lemma rev_string_involutive s : rev_string (rev_string s) = s.
Proof.
  unfold rev_string.
  rewrite list_ascii_of_string_of_list_ascii, rev_involutive.
  apply string_of_list_ascii_of_string.
Qed.

Lemma rev_string_String c s :
  rev_string (String c s) = (rev_string s ++ String c EmptyString)%string.
Proof. exact (rev_string_app (String c EmptyString) s). Qed.

Lemma allChars_app P a b : allChars P (a ++ b) = allChars P a && allChars P b.
Proof.
  induction a as [|c a IH]; [reflexivity|]. rewrite app_String. simpl.
  by rewrite IH, andb_assoc.
Qed.

Lemma allChars_rev P s : allChars P (rev_string s) = allChars P s.
Proof.
  induction s as [|c s IH]; [reflexivity|].
  rewrite rev_string_String, allChars_app, IH. simpl.
  by rewrite andb_true_r, andb_comm.
Qed.

Lemma skipSpaces_split s :
  exists pre, s = (pre ++ skipSpaces s)%string /\ allChars isSpace pre = true.
Proof.
  induction s as [|c s (pre & Hs & Hpre)]; [by exists EmptyString|].
  simpl. destruct (isSpace c) eqn:Hc; [|by exists EmptyString].
  exists (String c pre). rewrite app_String, <- Hs. split; [done|].
  simpl. by rewrite Hc.
Qed.

Lemma skipSpaces_head s : startsWithSpace (skipSpaces s) = false.
Proof.
  induction s as [|c s IH]; [reflexivity|].
  simpl. by destruct (isSpace c) eqn:Hc; [|simpl].
Qed.

Lemma skipSpaces_app x y c r :
  skipSpaces x = String c r -> skipSpaces (x ++ y) = String c (r ++ y).
Proof.
  induction x as [|d x IH]; [discriminate|].
  rewrite app_String. simpl. destruct (isSpace d); [exact IH|].
  intros [= -> ->]. reflexivity.
Qed.

Lemma allChars_skipSpaces P s : allChars P s = true -> allChars P (skipSpaces s) = true.
Proof.
  induction s as [|c s IH]; [done|]. simpl.
  destruct (isSpace c); [|done]. intros [_ H]%andb_true_iff. by apply IH.
Qed.

Lemma allChars_trim P s : allChars P s = true -> allChars P (trim s) = true.
Proof.
  intros H. unfold trim. rewrite allChars_rev. apply allChars_skipSpaces.
  rewrite allChars_rev. by apply allChars_skipSpaces.
Qed.

Lemma trim_end s : endsWithSpace (trim s) = false.
Proof.
  unfold endsWithSpace, trim. rewrite rev_string_involutive. apply skipSpaces_head.
Qed.

Lemma trim_start s : startsWithSpace (trim s) = false.
Proof.
  destruct (skipSpaces_split (rev_string (skipSpaces s))) as (pre & Hrev & _).
  apply (f_equal rev_string) in Hrev.
  rewrite rev_string_involutive, rev_string_app in Hrev. fold (trim s) in Hrev.
  pose proof (skipSpaces_head s) as Hhead. rewrite Hrev in Hhead.
  by destruct (trim s).
Qed.

Lemma lazyUntilClose_chars s g :
  lazyUntilClose s = Some g ->
  allChars (fun c => negb (Ascii.eqb c ")"%char) && negb (isLineTerminator c)) g = true.
Proof.
  revert g. induction s as [|c s IH]; intros g; [discriminate|]. simpl.
  destruct (Ascii.eqb c ")"%char) eqn:Hc; [by intros [= <-]|].
  destruct (isLineTerminator c) eqn:Hl; [discriminate|].
  destruct (lazyUntilClose s) as [g'|]; [|discriminate].
  intros [= <-]. simpl. rewrite Hc, Hl. by apply IH.
Qed.

Lemma paramMatch_chars s g :
  paramMatch s = Some g ->
  allChars (fun c => negb (Ascii.eqb c ")"%char) && negb (isLineTerminator c)) g = true.
Proof.
  induction s as [|c s IH]; [discriminate|]. simpl.
  destruct (Ascii.eqb c "("%char); [|exact IH].
  destruct (lazyUntilClose s) as [g'|] eqn:Hg; [|exact IH].
  intros [= <-]. by apply lazyUntilClose_chars in Hg.
Qed.

Lemma splitComma_chars P g :
  allChars P g = true ->
  Forall (fun piece => allChars (fun c => P c && negb (Ascii.eqb c ","%char)) piece = true)
         (splitComma g).
Proof.
  induction g as [|c g IH]; [by repeat constructor|]. simpl.
  intros [Hc Hg]%andb_true_iff. specialize (IH Hg).
  destruct (Ascii.eqb c ","%char) eqn:Hcomma; [by constructor|].
  destruct (splitComma g) as [|piece pieces].
  - repeat constructor. simpl. by rewrite Hc, Hcomma.
  - inversion IH as [|? ? Hpiece Hpieces]; subst. constructor; [|done].
    simpl. by rewrite Hc, Hcomma, Hpiece.
Qed.

(** X9. The parameters that [evalWrapper] infers from a text are never
    empty, have no white space at either end, and contain no comma, no
    closing parenthesis and no line terminator. *)
Theorem inferred_parameters_are_trimmed (codeString : string) :
  Forall (fun p => p <> EmptyString
                   /\ startsWithSpace p = false
                   /\ endsWithSpace p = false
                   /\ allChars parameterChar p = true)
         (inferParams codeString).
Proof.
  unfold inferParams. destruct (paramMatch codeString) as [g|] eqn:Hg; [|constructor].
  apply paramMatch_chars, splitComma_chars in Hg.
  induction Hg as [|piece pieces Hpiece _ IH]; [constructor|].
  rewrite fmap_cons, filter_cons.
  destruct (decide _) as [Hne|]; [|exact IH].
  constructor; [|exact IH].
  split; [by intros E; rewrite E in Hne|].
  split; [apply trim_start|]. split; [apply trim_end|].
  by apply allChars_trim.
Qed.

End TextFacts.

(** ** The body inferred from a text *)

Section BodyFacts.

Lemma stripPrefix_Some p s r : stripPrefix p s = Some r -> s = (p ++ r)%string.
Proof.
  revert s. induction p as [|a p IH]; intros s; simpl; [by intros [= ->]|].
  destruct s as [|b s]; [discriminate|].
  destruct (Ascii.eqb a b) eqn:E; [|discriminate].
  apply Ascii.eqb_eq in E as ->. intros H. rewrite app_String. f_equal. by apply IH.
Qed.

Lemma findFirst_Some n s b a : findFirst n s = Some (b, a) -> s = (b ++ n ++ a)%string.
Proof.
  revert b. induction s as [|c s IH]; intros b; simpl.
  - destruct (stripPrefix n EmptyString) eqn:E; [|discriminate].
    intros [= <- <-]. by apply stripPrefix_Some in E.
  - destruct (stripPrefix n (String c s)) eqn:E.
    + intros [= <- <-]. by apply stripPrefix_Some in E.
    + destruct (findFirst n s) as [[b' a']|]; [|discriminate].
      intros [= <- <-]. rewrite app_String. f_equal. by apply IH.
Qed.

Lemma greedyBlock_of_suffix s pre b :
  greedyBlock s = None -> s = (pre ++ b)%string -> greedyBlock b = None.
Proof.
  intros H ->. unfold greedyBlock in *. rewrite rev_string_app in H.
  destruct (skipSpaces (rev_string b)) as [|c r] eqn:E; [done|].
  rewrite (skipSpaces_app _ (rev_string pre) c r E) in H.
  by destruct (Ascii.eqb c "}"%char).
Qed.

Lemma arrowBlockHere_None s0 pre s :
  greedyBlock s0 = None -> s0 = (pre ++ s)%string -> arrowBlockHere s = None.
Proof.
  intros H ->. unfold arrowBlockHere.
  destruct (stripPrefix "=>" s) as [rest|] eqn:E; [|done].
  apply stripPrefix_Some in E as ->.
  destruct (skipSpaces_split rest) as (sp & Hrest & _).
  destruct (skipSpaces rest) as [|c body]; [done|].
  destruct (Ascii.eqb c "{"%char); [|done].
  apply (greedyBlock_of_suffix _ (pre ++ "=>" ++ sp ++ String c EmptyString) body H).
  rewrite Hrest at 1. by rewrite !string_app_assoc.
Qed.

Lemma functionBlockHere_None s0 pre s :
  greedyBlock s0 = None -> s0 = (pre ++ s)%string -> functionBlockHere s = None.
Proof.
  intros H ->. unfold functionBlockHere.
  destruct (stripPrefix "function" s) as [rest|] eqn:E; [|done].
  apply stripPrefix_Some in E as ->.
  destruct (findFirst "{" rest) as [[b body]|] eqn:Hb; [|done].
  apply findFirst_Some in Hb as ->.
  apply (greedyBlock_of_suffix _ (pre ++ "function" ++ b ++ "{") body H).
  by rewrite !string_app_assoc.
Qed.

Lemma bodyMatch_None s0 :
  greedyBlock s0 = None ->
  forall s pre, s0 = (pre ++ s)%string -> bodyMatch s = None.
Proof.
  intros H. induction s as [|c s IH]; intros pre Hs; [reflexivity|].
  cbn [bodyMatch].
  rewrite (arrowBlockHere_None s0 pre _ H Hs), (functionBlockHere_None s0 pre _ H Hs).
  apply (IH (pre ++ String c EmptyString)%string).
  by rewrite string_app_assoc.
Qed.

(** X10. For a text whose last character other than white space is not
    a closing brace, the body that [evalWrapper] compiles is [return]
    followed by what comes after the first [=>] of the text, leading
    white space skipped; a text with no [=>] is compiled as it is, with
    no [return] added. *)
Theorem body_of_text_not_ending_in_brace (codeString : string) :
  greedyBlock codeString = None ->
  inferBody codeString
  = match findFirst "=>" codeString with
    | Some (_, rest) => ("return " ++ skipSpaces rest)%string
    | None => codeString
    end.
Proof.
  intros H. unfold inferBody, arrowBodyMatch.
  rewrite (bodyMatch_None codeString H codeString EmptyString eq_refl).
  by destruct (findFirst "=>" codeString) as [[? ?]|].
Qed.






End BodyFacts.

Lemma body_of_text_not_ending_in_brace_witness :
  greedyBlock "(p, q) => p + q" = None
  /\ inferBody "(p, q) => p + q" = "return p + q".
Proof.
  split; [reflexivity|].
  exact (body_of_text_not_ending_in_brace "(p, q) => p + q" eq_refl).
Defined.

(** ** The function built from a stored text *)

Section FunctionStrings.
Context {W : Type} (eng : Engine W).


End FunctionStrings.

(** a text that mentions [...arguments] is changed before it is compiled *)
Example function_string_with_spread :
  sy_body (functionStringSynth "() => 'sum(...arguments)'" [Num (Finite 1); Num (Finite 2)])
  = "return (() => 'sum(arg0, arg1)')(...arguments);".
Proof. reflexivity. Qed.

(** ** Which texts are compiled as async functions *)

Section AsyncTexts.

Lemma findFirst_None_here n c s :
  findFirst n (String c s) = None ->
  stripPrefix n (String c s) = None /\ findFirst n s = None.
Proof.
  cbn [findFirst]. destruct (stripPrefix n (String c s)); [discriminate|].
  by destruct (findFirst n s) as [[? ?]|].
Qed.

Lemma asyncThenAnywhere_None next s :
  findFirst "async" s = None -> asyncThenAnywhere next s = false.
Proof.
  induction s as [|c s IH]; [reflexivity|].
  intros [Hhere Hrest]%findFirst_None_here.
  cbn [asyncThenAnywhere]. unfold asyncThenHere. rewrite Hhere.
  by apply IH.
Qed.

(** X12. A text is compiled with [new Function], not with the
    constructor of async functions, when, trimmed, it does not begin
    with [function] and does not contain [async]. *)
Theorem text_without_async_is_compiled_sync (codeString : string) :
  stripPrefix "function" (trim codeString) = None ->
  findFirst "async" (trim codeString) = None ->
  isLikelyAsyncString codeString = false.
Proof.
  intros Hfun Hasync. unfold isLikelyAsyncString. cbv zeta.
  rewrite !(asyncThenAnywhere_None _ _ Hasync).
  unfold functionAtStart. rewrite Hfun.
  destruct (trim codeString) as [|c t] eqn:Ht; [reflexivity|].
  apply findFirst_None_here in Hasync as [-> _]. reflexivity.
Qed.

End AsyncTexts.

Lemma text_without_async_is_compiled_sync_witness :
  stripPrefix "function" (trim "() => 'Fixed DB Code'") = None
  /\ findFirst "async" (trim "() => 'Fixed DB Code'") = None
  /\ isLikelyAsyncString "() => 'Fixed DB Code'" = false.
Proof.
  split; [reflexivity|]. split; [reflexivity|].
  exact (text_without_async_is_compiled_sync "() => 'Fixed DB Code'" eq_refl eq_refl).
Defined.

(** ** An instance constructed without a store and without an LLM *)

Section Unconfigured.
Context {W : Type} (eng : Engine W).

(** X13. An instance constructed without [getFunctionFromDb] and without
    an LLM (no [llm] option, and no API key or a failing [ChatOpenAI]
    constructor) is transparent: [run] is the fetch, which finds
    nothing, followed by the local version, and it settles as the local
    version does. *)
Theorem unconfigured_instance_is_transparent
    fuel (OPENAI_API_KEY : bool) (ChatOpenAI : option (LLM W)) (options : Options W)
    id description fnOrCode scope args st :
  opt_getFunctionFromDb options = None ->
  opt_llm options = None ->
  OPENAI_API_KEY = false \/ ChatOpenAI = None ->
  isFunctionOrString fnOrCode = true ->
  let x := run_local eng id fnOrCode scope args st in
  run eng fuel (constructor OPENAI_API_KEY ChatOpenAI options) id description fnOrCode
      scope args st
  = (resultOf x, EFetch id (Returned None) :: traceOf x, stateOf x).
Proof.
  intros Hget Hllm Hkey Hvalid x.
  rewrite run_without_llm; [| |done].
  - rewrite (run_try_local eng _ id fnOrCode scope args st None (world st)).
    + by destruct st.
    + unfold constructor. cbn [getFunctionFromDb]. by rewrite Hget.
    + by left.
  - unfold constructor. cbn [llm]. rewrite Hllm.
    by destruct Hkey as [-> | ->]; [|destruct OPENAI_API_KEY].
Qed.

End Unconfigured.

Lemma unconfigured_instance_is_transparent_witness :
  let options : Options Demo.world := mkOptions Demo.world None None None None in
  let out := run Demo.engine 3 (constructor true None options) "correct-fn-test"
               "Correct fn" (IsFunction Demo.localFn) [] [] Demo.st0 in
  opt_getFunctionFromDb options = None
  /\ opt_llm options = None
  /\ out = (Returned (Str "This local function is fine and should not run."),
            [EFetch "correct-fn-test" (Returned None);
             ECallDefault []
               (Returned (Str "This local function is fine and should not run."))],
            Demo.st0).
Proof.
  intros options out. split; [reflexivity|]. split; [reflexivity|].
  exact (unconfigured_instance_is_transparent Demo.engine 3 true None options
           "correct-fn-test" "Correct fn" (IsFunction Demo.localFn) [] [] Demo.st0
           eq_refl eq_refl (or_intror eq_refl) eq_refl).
Defined.

(** ** The scope of a textual evaluation *)

Section ScopeLookup.

Lemma assoc_get_set k k' v fields :
  assoc_get k (assoc_set k' v fields)
  = if String.eqb k' k then Some v else assoc_get k fields.
Proof.
  induction fields as [|[k0 v0] fields IH]; simpl.
  - rewrite (String.eqb_sym k k'). by destruct (String.eqb k' k).
  - destruct (String.eqb k' k0) eqn:E0; simpl.
    + apply String.eqb_eq in E0 as <-. rewrite (String.eqb_sym k k').
      by destruct (String.eqb k' k).
    + destruct (String.eqb k k0) eqn:E1; [|exact IH].
      apply String.eqb_eq in E1 as <-. by rewrite E0.
Qed.

(** X14. After the parameters are bound, a name of the execution scope
    holds the argument at the position of its last occurrence among the
    parameters, [undefined] when the run has no argument at that
    position; a name that is not a parameter holds what the caller's
    scope gave it.  A parameter shadows the scope even when no argument
    is passed for it.  The name [__proto__] is left out: an assignment
    to it sets the prototype and creates no property, which the
    association list does not model. *)
Theorem parameters_shadow_the_scope
    (params : list string) (args : list value) (scope : list (string * value)) (k : string) :
  k <> "__proto__" ->
  assoc_get k (bindParams params 0 args scope)
  = match lastIndexOf k params 0 with
    | Some i => Some (nth i args Undefined)
    | None => assoc_get k scope
    end.
Proof.
  intros _. generalize 0%nat as index. revert scope.
  induction params as [|param rest IH]; intros scope index; [reflexivity|].
  cbn [bindParams lastIndexOf]. rewrite IH.
  destruct (lastIndexOf k rest (S index)); [done|].
  rewrite assoc_get_set. by destruct (String.eqb param k).
Qed.

End ScopeLookup.

Lemma parameters_shadow_the_scope_witness :
  "x" <> "__proto__"
  /\ assoc_get "x" (bindParams (inferParams "(x, y, x) => x + y") 0
                      [Num (Finite 1); Num (Finite 2)]
                      [("x", Str "from scope"); ("z", Null)])
     = Some Undefined.
Proof.
  assert ("x" <> "__proto__") as Hk by discriminate.
  split; [exact Hk|].
  exact (parameters_shadow_the_scope (inferParams "(x, y, x) => x + y")
           [Num (Finite 1); Num (Finite 2)] [("x", Str "from scope"); ("z", Null)]
           "x" Hk).
Defined.

(** ** When a correction is accepted *)

Section Acceptance.
Context {W : Type} (eng : Engine W).

Lemma bind_ret_at {A B} (a : A) (k : A -> M W B) st : bind (ret a) k st = k a st.
Proof. unfold bind, ret. by destruct (k a st) as [[r tr] st']. Qed.

(** X15. The checks of [_attemptAICorrection] on a response whose first
    tool call carries arguments that are not a string (nothing to
    parse) accept a text [c] in exactly one case: the call is named
    [propose_corrected_block], its [block_id] is the id of the block,
    its [corrected_code] is the non-empty string [c], [return c]
    compiles and the call of the compiled function returns.  The text is
    returned as the LLM gave it; further tool calls and the content of
    the response are not looked at. *)
Theorem correction_is_accepted_exactly
    id (resp : aiResponse) (toolCall : toolCall) rest (st : St W) (c : string) :
  tool_calls resp = Some (toolCall :: rest) ->
  typeOf (tc_args toolCall) <> "string" ->
  let f := mkSynth false [] ("return " ++ c)%string in
  (exists tr st', validateResponse eng id resp st = (Returned c, tr, st'))
  <-> tc_name toolCall = "propose_corrected_block"
      /\ getProp (tc_args toolCall) "block_id" = Str id
      /\ getProp (tc_args toolCall) "corrected_code" = Str c
      /\ c <> EmptyString
      /\ syntax_ok eng f = true
      /\ exists v w', call_fn eng f [] (world st) = (Returned v, w').
Proof.
  intros Hcalls Hargs f. unfold validateResponse, mbind, M_bind. rewrite Hcalls.
  assert (forall k : value -> M W string,
            bind match tc_args toolCall with
                 | Str s =>
                     tryCatch (builtin (JSON_parse eng s))
                       (fun parseError =>
                          bind (new_Error
                                  ("Failed to parse tool call arguments string: "
                                     ++ err_message parseError)%string)
                               (fun e => throw e))
                 | parsedArgs => ret parsedArgs
                 end k st
            = k (tc_args toolCall) st) as ->.
  { intros k. destruct (tc_args toolCall); try apply bind_ret_at. by destruct Hargs. }
  destruct (String.eqb (tc_name toolCall) "propose_corrected_block") eqn:Hname; cycle 1.
  { cbn [negb orb]. split; [by intros (tr & st' & [=])|].
    intros (E & _). rewrite E in Hname. discriminate Hname. }
  apply String.eqb_eq in Hname. cbn [negb orb].
  destruct (tc_args toolCall) as [| | |n|s|items|fields|src] eqn:Ha;
    try (split; [by intros (tr & st' & [=])|by intros (_ & [=] & _)]).
  replace (negb (String.eqb (typeOf (Obj fields)) "object")) with false by reflexivity.
  cbn [orb].
  destruct (getProp (Obj fields) "block_id") as [| | |n|b|items|fs|src] eqn:Hid;
    try (split; [by intros (tr & st' & [=])|by intros (_ & [=] & _)]).
  unfold strictEqStr.
  destruct (String.eqb b id) eqn:Hb; cycle 1.
  { split; [by intros (tr & st' & [=])|].
    intros (_ & [= E] & _). rewrite E, String.eqb_refl in Hb. discriminate Hb. }
  apply String.eqb_eq in Hb as ->. cbn [negb].
  destruct (getProp (Obj fields) "corrected_code") as [| | |n|c0|items|fs|src] eqn:Hcode;
    try (split; [by intros (tr & st' & H); revert H;
                    destruct (negb (truthy _)); simpl; discriminate
                |by intros (_ & _ & [=] & _)]).
  destruct (String.eqb c0 EmptyString) eqn:Hc0.
  { apply String.eqb_eq in Hc0 as ->.
    split; [by intros (tr & st' & [=])|by intros (_ & _ & [= <-] & Hne & _)]. }
  replace (negb (truthy (Str c0))) with false by (simpl; by rewrite Hc0).
  replace (negb (String.eqb (typeOf (Str c0)) "string")) with false by reflexivity.
  cbn [orb].
  apply String.eqb_neq in Hc0. subst f.
  unfold bind, tryCatch, checkSyntax, mbind, M_bind, bind, new_Function, ext.
  destruct (syntax_ok eng (mkSynth false [] ("return " ++ c0)%string)) eqn:Hok.
  - destruct (call_fn eng (mkSynth false [] ("return " ++ c0)%string) [] (world st))
      as [[v|e|] w'] eqn:Hcall; simpl.
    + split.
      * intros (tr & st' & [= <- _ _]). repeat split; try done. by exists v, w'.
      * intros (_ & _ & [= <-] & _). by eexists; eexists.
    + split; [by intros (tr & st' & [=])|].
      intros (_ & _ & [= <-] & _ & _ & v & w'' & Hc). rewrite Hcall in Hc.
      discriminate Hc.
    + split; [by intros (tr & st' & [=])|].
      intros (_ & _ & [= <-] & _ & _ & v & w'' & Hc). rewrite Hcall in Hc.
      discriminate Hc.
  - destruct (syntax_error eng _ (world st)) as [e w']; simpl.
    split; [by intros (tr & st' & [=])|].
    intros (_ & _ & [= <-] & _ & Hok' & _). rewrite Hok in Hok'. discriminate Hok'.
Qed.

End Acceptance.

Lemma correction_is_accepted_exactly_witness :
  let id := "db-error-test" in
  let c := "() => 'Fixed DB Code'" in
  let toolCall :=
    mkToolCall "propose_corrected_block"
      (Obj [("block_id", Str id); ("corrected_code", Str c)]) "call_mock" in
  let resp := {| tool_calls := Some [toolCall]; content := EmptyString |} in
  typeOf (tc_args toolCall) <> "string"
  /\ exists tr st', validateResponse Demo.engine id resp Demo.st0 = (Returned c, tr, st').
Proof.
  intros id c toolCall resp.
  assert (typeOf (tc_args toolCall) <> "string") as Hargs by discriminate.
  split; [exact Hargs|].
  apply (correction_is_accepted_exactly Demo.engine id resp toolCall [] Demo.st0 c
           eq_refl Hargs).
  split; [reflexivity|]. split; [reflexivity|]. split; [reflexivity|].
  split; [discriminate|]. split; [reflexivity|].
  eexists. eexists. reflexivity.
Defined.

(** ** The function of the correction tool *)

Section ToolFunction.
Context {W : Type} (eng : Engine W).


End ToolFunction.


Lemma inferred_parameters_are_trimmed_witness :
  inferParams "async ( a ,  b,, c ) => a" = ["a"; "b"; "c"]
  /\ Forall (fun p => p <> EmptyString
                      /\ startsWithSpace p = false
                      /\ endsWithSpace p = false
                      /\ allChars parameterChar p = true)
            (inferParams "async ( a ,  b,, c ) => a").
Proof.
  split; [reflexivity|].
  exact (inferred_parameters_are_trimmed "async ( a ,  b,, c ) => a").
Defined.

